(** * A verification model of the psqs queue layer

    Shallow embedding of [src/queue/pbs.rs], [src/queue/local.rs],
    [src/queue/drain/dump.rs] and [src/program/molpro.rs]: job-id
    extraction, the retry loop of [submit_inner] and the [submit]
    methods, the Molpro submit command, the submit-script header
    rendering, the [qstat] table parser of [Pbs::status], the [Local]
    queue, the [Dump] deletion worker as an interleaving step relation
    between the main thread and the worker thread, and the Molpro input
    writer with the regexes it uses. *)

From Stdlib Require Import Ascii String ZArith Lia.
From stdpp Require Import base list gmap strings.

Local Open Scope string_scope.

(* ------------------------------------------------------------------ *)
(** ** Rust string primitives used by the queue code

    A Rust [str] or [String] is modelled by its UTF-8 bytes: a [string]
    whose [ascii] letters are the bytes. The operations that work on
    characters ([char::is_whitespace], [str::trim],
    [str::split_whitespace], the [.] and [\s] of a regex) group the bytes
    into characters as [str::chars] does. *)

(** A UTF-8 continuation byte, [0b10xxxxxx]. *)
Definition is_cont (a : ascii) : bool :=
  let n := nat_of_ascii a in ((128 <=? n) && (n <? 192))%nat.

(** [Vec::push] of a non-empty piece in front of the pieces after it. *)
Definition push_word (w : string) (ws : list string) : list string :=
  match w with
  | EmptyString => ws
  | _ => w :: ws
  end.

(** [str::chars], each character given by its bytes: a byte that is not
    a continuation byte starts a character and the continuation bytes
    after it belong to it. [chars_aux s] returns the continuation bytes
    [s] starts with and the characters after them (for a [str], which is
    valid UTF-8, the former is empty). *)
Fixpoint chars_aux (s : string) : string * list string :=
  match s with
  | EmptyString => (EmptyString, [])
  | String a s' =>
      let '(c, cs) := chars_aux s' in
      if is_cont a then (String a c, cs) else (EmptyString, String a c :: cs)
  end.

Definition chars (s : string) : list string :=
  let '(c, cs) := chars_aux s in push_word c cs.

(** The continuation bytes [s] starts with, and the rest. *)
Fixpoint span_cont (s : string) : string * string :=
  match s with
  | EmptyString => (EmptyString, EmptyString)
  | String a s' =>
      if is_cont a then let '(c, r) := span_cont s' in (String a c, r)
      else (EmptyString, s)
  end.

(** The first character of [s] (all its bytes) and the text after it. *)
Definition next_char (s : string) : option (string * string) :=
  match s with
  | EmptyString => None
  | String a s' => let '(c, r) := span_cont s' in Some (String a c, r)
  end.

(** [char::is_whitespace], the Unicode White_Space property, of the
    character whose UTF-8 bytes are [c]: U+0009..U+000D, U+0020, U+0085
    (C2 85), U+00A0 (C2 A0), U+1680 (E1 9A 80), U+2000..U+200A
    (E2 80 80..8A), U+2028 (E2 80 A8), U+2029 (E2 80 A9), U+202F
    (E2 80 AF), U+205F (E2 81 9F) and U+3000 (E3 80 80). *)
Definition is_whitespace (c : string) : bool :=
  match map nat_of_ascii (list_ascii_of_string c) with
  | [b] => ((9 <=? b) && (b <=? 13)) || (b =? 32)
  | [b0; b1] => (b0 =? 194) && ((b1 =? 133) || (b1 =? 160))
  | [b0; b1; b2] =>
      ((b0 =? 225) && (b1 =? 154) && (b2 =? 128)) ||
      ((b0 =? 226) && (b1 =? 128) &&
         (((128 <=? b2) && (b2 <=? 138)) || (b2 =? 168) || (b2 =? 169) || (b2 =? 175))) ||
      ((b0 =? 226) && (b1 =? 129) && (b2 =? 159)) ||
      ((b0 =? 227) && (b1 =? 128) && (b2 =? 128))
  | _ => false
  end%nat.

(** The bytes of a list of characters, in order. *)
Fixpoint concat_chars (cs : list string) : string :=
  match cs with
  | [] => EmptyString
  | c :: cs' => c +:+ concat_chars cs'
  end.

(** [str::split_whitespace]: split at every whitespace character and
    drop the empty pieces. [split_ws_aux cs] returns the first (possibly
    empty) piece of the characters [cs] and the non-empty pieces after
    it. *)
Fixpoint split_ws_aux (cs : list string) : string * list string :=
  match cs with
  | [] => (EmptyString, [])
  | c :: cs' =>
      let '(w, ws) := split_ws_aux cs' in
      if is_whitespace c then (EmptyString, push_word w ws)
      else (c +:+ w, ws)
  end.

Definition split_whitespace (s : string) : list string :=
  let '(w, ws) := split_ws_aux (chars s) in push_word w ws.

(** [Iterator::skip_while], on a list. *)
Fixpoint drop_while {A} (p : A -> bool) (l : list A) : list A :=
  match l with
  | [] => []
  | x :: l' => if p x then drop_while p l' else l
  end.

(** [str::trim], that is [trim_matches(char::is_whitespace)]: the
    whitespace characters at the start and at the end are removed. *)
Definition trim (s : string) : string :=
  concat_chars
    (rev (drop_while is_whitespace (rev (drop_while is_whitespace (chars s))))).

(** [std::str::from_utf8] succeeds exactly on well-formed UTF-8: one
    byte 00..7F; two bytes C2..DF 80..BF; three bytes E0 A0..BF 80..BF,
    E1..EC 80..BF 80..BF, ED 80..9F 80..BF, EE..EF 80..BF 80..BF (no
    overlong forms, no surrogates); four bytes F0 90..BF, F1..F3 80..BF,
    F4 80..8F, each followed by two bytes 80..BF (nothing above
    U+10FFFF). *)
Definition in_range (lo hi b : nat) : bool := ((lo <=? b) && (b <=? hi))%nat.

Fixpoint utf8_ok (bs : list nat) : bool :=
  match bs with
  | [] => true
  | b0 :: r0 =>
      if (b0 <? 128)%nat then utf8_ok r0 else
      match r0 with
      | [] => false
      | b1 :: r1 =>
          if in_range 194 223 b0 then in_range 128 191 b1 && utf8_ok r1 else
          match r1 with
          | [] => false
          | b2 :: r2 =>
              if in_range 224 239 b0 then
                in_range (if (b0 =? 224)%nat then 160 else 128)
                         (if (b0 =? 237)%nat then 159 else 191) b1 &&
                in_range 128 191 b2 && utf8_ok r2
              else
              match r2 with
              | [] => false
              | b3 :: r3 =>
                  in_range 240 244 b0 &&
                  in_range (if (b0 =? 240)%nat then 144 else 128)
                           (if (b0 =? 244)%nat then 143 else 191) b1 &&
                  in_range 128 191 b2 && in_range 128 191 b3 && utf8_ok r3
              end
          end
      end
  end.

(** [std::str::from_utf8]: the same bytes, viewed as a [str], when they
    are valid UTF-8. *)
Definition from_utf8 (s : string) : option string :=
  if utf8_ok (map nat_of_ascii (list_ascii_of_string s)) then Some s else None.

(** [Option::unwrap_or]. *)
Definition unwrap_or {A} (o : option A) (d : A) : A :=
  match o with
  | Some x => x
  | None => d
  end.

(* ------------------------------------------------------------------ *)
(** ** [submit_inner] (pbs.rs) *)

(** [std::process::Output]; [stdout] holds the bytes the command wrote. *)
Record Output := {
  success : bool;
  stdout : string;
  stderr : string
}.

(** Result of one [cmd.output()]: the [Output], or an [io::Error]. *)
Inductive exec_result :=
| ExecOk (o : Output)
| ExecErr (e : string).

(** Observable effects of the loop, in order. *)
Inductive event :=
| EvExec (attempt : nat)                 (* [cmd.output()] number [attempt] *)
| EvRetryLog (o : Output) (retries : nat) (* eprintln "... retrying {retries} more times" *)
| EvSleep (secs : nat).                   (* [thread::sleep(from_secs(sleep_int))] *)

Inductive submit_outcome :=
| SubOk (jobid : string)      (* [return Ok(..)] *)
| SubIoErr (e : string)       (* [Err(e) => return Err(e)] *)
| SubPanic (o : Output)       (* [panic!("qsub failed with output: {s:#?}")] *)
| SubUtf8Err (o : Output).    (* [from_utf8(&s.stdout).unwrap()] panics *)

(** [raw.split_whitespace().last().unwrap_or("no jobid")] for
    [raw = stdout.trim()]. *)
Definition extract_jobid (out : string) : string :=
  unwrap_or (last (split_whitespace (trim out))) "no jobid".

(** What the loop returns for a run that exited successfully:
    [std::str::from_utf8(&s.stdout).unwrap()], then the job id. *)
Definition accept (s : Output) : submit_outcome :=
  match from_utf8 (stdout s) with
  | Some raw => SubOk (extract_jobid raw)
  | None => SubUtf8Err s
  end.

(** The [loop] of [submit_inner]. [run k] is what the [k]-th execution
    of the command returns; [retries] is the loop's counter. *)
Fixpoint submit_loop (run : nat -> exec_result) (sleep_int : nat)
    (retries : nat) (k : nat) : list event * submit_outcome :=
  match run k with
  | ExecErr e => ([EvExec k], SubIoErr e)
  | ExecOk s =>
      if success s then ([EvExec k], accept s)
      else match retries with
           | O => ([EvExec k], SubPanic s)
           | S r =>
               let '(tr, res) := submit_loop run sleep_int r (S k) in
               (EvExec k :: EvRetryLog s retries :: EvSleep sleep_int :: tr, res)
           end
  end.

Definition submit_inner (run : nat -> exec_result) (sleep_int : nat)
    : list event * submit_outcome :=
  submit_loop run sleep_int 5 0.

Definition failed_run (run : nat -> exec_result) (i : nat) : Prop :=
  exists o, run i = ExecOk o /\ success o = false.

(* ------------------------------------------------------------------ *)
(** ** [std::path::Path] on Unix: [file_name] and [parent]

    [Path::components] parses an optional root [/], a leading [.]
    (kept as [CurDir] only when the path is [.] or starts with [./]) and
    a body of [/]-separated segments in which empty and [.] segments are
    skipped. [file_name] is the last component when it is [Normal];
    [parent] is [Components::as_path] of what precedes the last
    component (the raw prefix, trailing separators and [.] segments
    trimmed), and [None] when the last component is the root or there
    is none. *)
Inductive component :=
| RootDir
| CurDir
| ParentDir
| Normal (s : string).

(** Split at every [sep], keeping empty pieces ([str::split]). *)
Fixpoint split_char_aux (sep : ascii) (s : string) : string * list string :=
  match s with
  | EmptyString => (EmptyString, [])
  | String c s' =>
      let '(w, ws) := split_char_aux sep s' in
      if Ascii.eqb c sep then (EmptyString, w :: ws) else (String c w, ws)
  end.

Definition split_char (sep : ascii) (s : string) : list string :=
  let '(w, ws) := split_char_aux sep s in w :: ws.

Definition skippable_segment (seg : string) : bool :=
  String.eqb seg EmptyString || String.eqb seg ".".

Definition path_has_root (p : string) : bool :=
  match p with
  | String "/" _ => true
  | _ => false
  end.

Definition path_include_cur_dir (p : string) : bool :=
  match p with
  | String "." EmptyString => true
  | String "." (String "/" _) => true
  | _ => false
  end.

Definition len_before_body (p : string) : nat :=
  (if path_has_root p then 1 else 0) + (if path_include_cur_dir p then 1 else 0).

(** The last component of [p] and [as_path] of the components before it. *)
Definition next_back (p : string) : option (component * string) :=
  let n := len_before_body p in
  let pre := substring 0 n p in
  let body := substring n (String.length p - n) p in
  match drop_while skippable_segment (rev (split_char "/" body)) with
  | seg :: rxs =>
      let rest := rev (drop_while skippable_segment rxs) in
      Some (if String.eqb seg ".." then ParentDir else Normal seg,
            pre +:+ String.concat "/" rest)
  | [] =>
      if path_include_cur_dir p then Some (CurDir, EmptyString)
      else if path_has_root p then Some (RootDir, EmptyString)
      else None
  end.

Definition file_name (p : string) : option string :=
  match next_back p with
  | Some (Normal s, _) => Some s
  | _ => None
  end.

Definition parent (p : string) : option string :=
  match next_back p with
  | Some (RootDir, _) | None => None
  | Some (_, rest) => Some rest
  end.

(* ------------------------------------------------------------------ *)
(** ** Panicking computations *)

Inductive outcome (A : Type) :=
| Ret (a : A)
| Panic (msg : string).
Arguments Ret {A} a.
Arguments Panic {A} msg.

Definition obind {A B} (m : outcome A) (k : A -> outcome B) : outcome B :=
  match m with
  | Ret a => k a
  | Panic msg => Panic msg
  end.

#[global] Instance outcome_ret : MRet outcome := @Ret.
#[global] Instance outcome_bind : MBind outcome := fun A B k m => obind m k.

(** [Option::unwrap]. *)
Definition unwrap {A} (o : option A) : outcome A :=
  match o with
  | Some a => Ret a
  | None => Panic "called `Option::unwrap()` on a `None` value"
  end.

(* ------------------------------------------------------------------ *)
(** ** The [Pbs] queue: configuration and submit commands *)

Record Pbs := {
  pbs_chunk_size : nat;
  pbs_job_limit : nat;
  pbs_sleep_int : nat;
  pbs_dir : string;
  pbs_no_del : bool;
  pbs_template : option string
}.

(** The [SubQueue] trait (the program parameter [P] plays no role in
    the methods modelled here). *)
Class SubQueue (Q : Type) := {
  submit_command : Q -> string;
  chunk_size : Q -> nat;
  job_limit : Q -> nat;
  sleep_int : Q -> nat;
  dir : Q -> string;
  no_del : Q -> bool
}.

#[global] Instance Pbs_SubQueue : SubQueue Pbs := {
  submit_command _ := "qsub";
  chunk_size q := pbs_chunk_size q;
  job_limit q := pbs_job_limit q;
  sleep_int q := pbs_sleep_int q;
  dir q := pbs_dir q;
  no_del q := pbs_no_del q
}.

(** A configured [std::process::Command]. *)
Record Command := {
  program : string;
  args : list string;
  current_dir : option string
}.

(** [<Pbs as Submit<Mopac>>::submit]: the command handed to [submit_inner]. *)
Definition submit_command_mopac (q : Pbs) (filename : string) : outcome Command :=
  Ret {| program := submit_command q; args := ["-f"; filename]; current_dir := None |}.

(** [<Pbs as Submit<Molpro>>::submit]: the command handed to [submit_inner]. *)
Definition submit_command_molpro (q : Pbs) (filename : string) : outcome Command :=
  d ← unwrap (parent filename);
  base ← unwrap (file_name filename);
  Ret {| program := submit_command q; args := [base]; current_dir := Some d |}.

(* ------------------------------------------------------------------ *)
(** ** Submit scripts ([Queue::write_submit_script]) *)

(** [str::replace(from, to)]: every non-overlapping occurrence of [from],
    scanning left to right. [from] is a non-empty literal at every call
    site, so each iteration consumes at least one character and the fuel
    [String.length s] is enough. *)
Fixpoint replace_fuel (fuel : nat) (from to s : string) : string :=
  match fuel with
  | O => s
  | S fuel' =>
      match s with
      | EmptyString => EmptyString
      | String c s' =>
          if String.prefix from s
          then to +:+ replace_fuel fuel' from to
                 (substring (String.length from) (String.length s - String.length from) s)
          else String c (replace_fuel fuel' from to s')
      end
  end.

Definition replace (s from to : string) : string :=
  replace_fuel (String.length s) from to s.

Definition nl : string := String (ascii_of_nat 10) EmptyString.
Definition dquote : string := String (ascii_of_nat 34) EmptyString.

(** [<Pbs as Queue<Molpro>>::default_submit_script]. *)
Definition default_submit_script_molpro : string :=
"#!/bin/sh
#PBS -N {{.basename}}
#PBS -S /bin/bash
#PBS -j oe
#PBS -o {{.basename}}.out
#PBS -W umask=022
#PBS -l walltime=1000:00:00
#PBS -l ncpus=1
#PBS -l mem=8gb
#PBS -q workq

module load openpbs molpro

export WORKDIR=$PBS_O_WORKDIR
export TMPDIR=/tmp/$USER/$PBS_JOBID
cd $WORKDIR
mkdir -p $TMPDIR
".

(** [<Pbs as Queue<Mopac>>::default_submit_script]. *)
Definition default_submit_script_mopac : string :=
"#!/bin/sh
#PBS -N {{.basename}}
#PBS -S /bin/bash
#PBS -j oe
#PBS -o {{.filename}}.out
#PBS -W umask=022
#PBS -l walltime=1000:00:00
#PBS -l ncpus=1
#PBS -l mem=1gb
#PBS -q workq

module load openpbs

export WORKDIR=$PBS_O_WORKDIR
cd $WORKDIR

".

(** The header both variants render: the template or the default, with
    the placeholders replaced as each variant does it. *)
Definition molpro_header (q : Pbs) (basename : string) : string :=
  replace (unwrap_or (pbs_template q) default_submit_script_molpro)
    "{{.basename}}" basename.

Definition mopac_header (q : Pbs) (basename filename : string) : string :=
  replace (replace (unwrap_or (pbs_template q) default_submit_script_mopac)
             "{{.basename}}" basename)
    "{{.filename}}" filename.

(** [{:?}] of the [OsStr] a file name is: the name in double quotes,
    each byte written as [char::escape_debug] writes it within a string:
    [\0], [\t], [\r], [\n], the backslash and the double quote escaped
    with a backslash, the other ASCII
    control characters as [\u{..}] in lowercase hexadecimal, printable
    ASCII as it is. Bytes from 80 on are copied (Rust also escapes the
    non-printable and grapheme-extending non-ASCII characters and writes
    the bytes that are not UTF-8 as [\xNN]). *)
Definition hex_digit (n : nat) : ascii :=
  ascii_of_nat (if (n <? 10)%nat then 48 + n else 87 + n)%nat.

Definition backslash : ascii := ascii_of_nat 92.

Definition debug_byte (a : ascii) : string :=
  let n := nat_of_ascii a in
  if (n =? 0)%nat then String backslash "0"
  else if (n =? 9)%nat then String backslash "t"
  else if (n =? 13)%nat then String backslash "r"
  else if (n =? 10)%nat then String backslash "n"
  else if (n =? 92)%nat then String backslash (String backslash EmptyString)
  else if (n =? 34)%nat then String backslash dquote
  else if ((n <? 32) || (n =? 127))%nat then
    String backslash ("u{" +:+
      (if (n <? 16)%nat then String (hex_digit n) EmptyString
       else String (hex_digit (n / 16)) (String (hex_digit (n mod 16)) EmptyString)) +:+ "}")
  else String a EmptyString.

Fixpoint debug_bytes (s : string) : string :=
  match s with
  | EmptyString => EmptyString
  | String a s' => debug_byte a +:+ debug_bytes s'
  end.

Definition debug_os_str (s : string) : string := dquote +:+ debug_bytes s +:+ dquote.

(** [<Pbs as Queue<Molpro>>::write_submit_script]: the contents written
    to [filename] ([File::create] failing makes both variants stop the
    process; that path is not modelled). *)
Fixpoint molpro_lines (infiles : list string) : outcome string :=
  match infiles with
  | [] => Ret EmptyString
  | f :: fs =>
      b ← unwrap (file_name f);
      rest ← molpro_lines fs;
      Ret ("molpro -t $NCPUS --no-xml-output " +:+ debug_os_str b +:+ ".inp"
           +:+ nl +:+ rest)
  end.

Definition write_submit_script_molpro (q : Pbs) (infiles : list string)
    (filename : string) : outcome string :=
  basename ← unwrap (file_name filename);
  body ← molpro_lines infiles;
  Ret (molpro_header q basename +:+ body +:+ "rm -rf $TMPDIR" +:+ nl).

(** [<Pbs as Queue<Mopac>>::write_submit_script]. *)
Definition mopac_lines (infiles : list string) : string :=
  String.concat EmptyString (map (fun f =>
    "/ddn/home1/r2518/Packages/mopac/build/mopac " +:+ f +:+ ".mop" +:+ nl) infiles).

Definition write_submit_script_mopac (q : Pbs) (infiles : list string)
    (filename : string) : outcome string :=
  basename ← unwrap (file_name filename);
  Ret (mopac_header q basename filename +:+ mopac_lines infiles).

(* ------------------------------------------------------------------ *)
(** ** [Pbs::status]: parsing the output of [qstat -u $USER] *)

(** [str::lines]: pieces ending in [\n] (a final piece without one is
    kept when non-empty); a [\r] just before the [\n] is removed. *)
Definition strip_cr (l : string) : string :=
  match String.length l with
  | O => l
  | S n => if String.eqb (substring n 1 l) (String (ascii_of_nat 13) EmptyString)
           then substring 0 n l else l
  end.

Fixpoint lines_of (pieces : list string) : list string :=
  match pieces with
  | [] => []
  | [p] => match p with EmptyString => [] | _ => [p] end
  | p :: ps => strip_cr p :: lines_of ps
  end.

Definition lines (s : string) : list string :=
  lines_of (split_char (ascii_of_nat 10) s).

(** [str::contains] for a string pattern. *)
Fixpoint contains (s pat : string) : bool :=
  String.prefix pat s ||
  match s with
  | EmptyString => false
  | String _ s' => contains s' pat
  end.

Definition divider : string := "-----------".

(** The [for line in lines] loop with its [assert!]. *)
Fixpoint status_loop (ls : list string) (ret : gset string) : outcome (gset string) :=
  match ls with
  | [] => Ret ret
  | line :: ls' =>
      let fields := split_whitespace line in
      if negb (length fields =? 11)%nat
      then Panic "assertion failed: fields.len() == 11"
      else match fields with
           | f0 :: _ => status_loop ls' ({[f0]} ∪ ret)
           | [] => Panic "index out of bounds"
           end
  end.

(** [<Pbs as SubQueue<P>>::status], given the text [stat_cmd] returned. *)
Definition status (stat_output : string) : outcome (gset string) :=
  status_loop
    (drop_while (fun l => negb (contains l divider)) (lines stat_output)) ∅.

(* ------------------------------------------------------------------ *)
(** ** The [Local] queue (local.rs) *)

Record Local := {
  local_dir : string;
  local_chunk_size : nat;
  local_mopac : string
}.

(** [Local::new]. *)
Definition Local_new (chunk_size : nat) (_job_limit : nat) (_sleep_int : nat)
    (dir : string) (_no_del : bool) (_template : option string) : Local :=
  {| local_dir := dir; local_chunk_size := chunk_size;
     local_mopac := "/opt/mopac/mopac" |}.

#[global] Instance Local_SubQueue : SubQueue Local := {
  submit_command _ := "bash";
  chunk_size q := local_chunk_size q;
  job_limit _ := 1600;
  sleep_int _ := 1;
  dir q := local_dir q;
  no_del _ := false
}.

(** The directory reads [<Local as SubQueue<P>>::status] performs:
    [read_dir] gives the entries (an entry is [None] when iterating
    yields an [io::Error]), [read_to_string] a file's contents. *)
Record LocalFs := {
  fs_read_dir : string -> option (list (option string));
  fs_read_to_string : string -> option string
}.

(** Computations that write to stderr and may panic. *)
Definition io (A : Type) : Type := list string -> list string * outcome A.

Definition io_ret {A} (a : A) : io A := fun err => (err, Ret a).
Definition io_bind {A B} (m : io A) (k : A -> io B) : io B :=
  fun err => match m err with
             | (err', Ret a) => k a err'
             | (err', Panic msg) => (err', Panic msg)
             end.
Definition eprintln (msg : string) : io unit := fun err => (app err [msg], Ret tt).
Definition io_panic {A} (msg : string) : io A := fun err => (err, Panic msg).
Definition io_unwrap {A} (o : option A) : io A :=
  match o with
  | Some a => io_ret a
  | None => io_panic "called `Result::unwrap()` on an `Err` value"
  end.

Fixpoint print_entries (fs : LocalFs) (es : list (option string)) : io unit :=
  match es with
  | [] => io_ret tt
  | e :: es' =>
      io_bind (io_unwrap e) (fun path =>
      io_bind (eprintln ("contents of " +:+ path)) (fun _ =>
      io_bind (io_unwrap (fs_read_to_string fs path)) (fun text =>
      io_bind (eprintln text) (fun _ =>
      io_bind (eprintln "================") (fun _ =>
      print_entries fs es')))))
  end.

Fixpoint print_dirs (fs : LocalFs) (dirs : list string) : io unit :=
  match dirs with
  | [] => io_ret tt
  | d :: ds =>
      io_bind (io_unwrap (fs_read_dir fs d)) (fun es =>
      io_bind (print_entries fs es) (fun _ => print_dirs fs ds))
  end.

Definition local_status (fs : LocalFs) : io (gset string) :=
  io_bind (print_dirs fs ["opt"; "pts"; "freqs"]) (fun _ =>
  io_panic "no status available for Local queue").

(* ------------------------------------------------------------------ *)
(** ** [Dump] (drain/dump.rs): main thread and deletion worker

    The worker runs [for file in receiver { if exit.try_recv().is_ok()
    { return; } remove_file(file) ... }]. The main thread runs a program
    of [send] calls and the steps of [shutdown]: drop the sender, send
    on the zero-capacity [signal] channel (a rendezvous with the
    worker's [try_recv]), drop the signal, join the worker. The two
    threads interleave arbitrarily. *)

Inductive instr :=
| ISend (f : string)   (* [Dump::send]: [self.sender.send(s).unwrap()] *)
| IDropSender          (* [drop(self.sender)] *)
| ISignal              (* [self.signal.send(()).unwrap()] *)
| IDropSignal          (* [drop(self.signal)] *)
| IJoin.               (* [self.handle.join().unwrap()] *)

Definition shutdown : list instr := [IDropSender; ISignal; IDropSignal; IJoin].

Inductive wpc :=
| WLoop                (* at [for file in receiver] *)
| WGot (f : string)    (* received [f], about to call [exit.try_recv()] *)
| WDel (f : string)    (* about to call [remove_file(&f)] *)
| WExited.             (* returned; both receivers dropped *)

Inductive dlog :=
| LRemoved (f : string)
| LRemoveFailed (f : string).   (* eprintln "failed to remove {file} with {e}" *)

Record dstate := mkD {
  d_main : list instr;       (* what the main thread has left to run *)
  d_panicked : bool;         (* the main thread panicked *)
  d_queue : list string;     (* filenames in the channel *)
  d_sender_alive : bool;
  d_worker : wpc;
  d_fs : gset string;        (* files that exist *)
  d_sent : list string;      (* filenames sent so far, in order *)
  d_log : list dlog          (* deletions attempted, in order *)
}.

Inductive dstep : dstate -> dstate -> Prop :=
| step_send f m q sa w fs sent lg :
    w <> WExited ->
    dstep (mkD (ISend f :: m) false q sa w fs sent lg)
          (mkD m false (q ++ [f]) sa w fs (sent ++ [f]) lg)
| step_send_panic f m q sa fs sent lg :
    dstep (mkD (ISend f :: m) false q sa WExited fs sent lg)
          (mkD (ISend f :: m) true q sa WExited fs sent lg)
| step_drop_sender m q sa w fs sent lg :
    dstep (mkD (IDropSender :: m) false q sa w fs sent lg)
          (mkD m false q false w fs sent lg)
| step_signal_handoff f m q sa fs sent lg :
    dstep (mkD (ISignal :: m) false q sa (WGot f) fs sent lg)
          (mkD m false q sa WExited fs sent lg)
| step_signal_panic m q sa fs sent lg :
    dstep (mkD (ISignal :: m) false q sa WExited fs sent lg)
          (mkD (ISignal :: m) true q sa WExited fs sent lg)
| step_drop_signal m q sa w fs sent lg :
    dstep (mkD (IDropSignal :: m) false q sa w fs sent lg)
          (mkD m false q sa w fs sent lg)
| step_join m q sa fs sent lg :
    dstep (mkD (IJoin :: m) false q sa WExited fs sent lg)
          (mkD m false q sa WExited fs sent lg)
| step_recv m p f q sa fs sent lg :
    dstep (mkD m p (f :: q) sa WLoop fs sent lg)
          (mkD m p q sa (WGot f) fs sent lg)
| step_recv_closed m p fs sent lg :
    dstep (mkD m p [] false WLoop fs sent lg)
          (mkD m p [] false WExited fs sent lg)
| step_try_recv_empty m p f q sa fs sent lg :
    dstep (mkD m p q sa (WGot f) fs sent lg)
          (mkD m p q sa (WDel f) fs sent lg)
| step_remove_ok m p f q sa fs sent lg :
    f ∈ fs ->
    dstep (mkD m p q sa (WDel f) fs sent lg)
          (mkD m p q sa WLoop (fs ∖ {[f]}) sent (lg ++ [LRemoved f]))
| step_remove_err m p f q sa fs sent lg :
    f ∉ fs ->
    dstep (mkD m p q sa (WDel f) fs sent lg)
          (mkD m p q sa WLoop fs sent (lg ++ [LRemoveFailed f])).

(** [Dump::new()] followed by the main thread's program. *)
Definition dump_init (prog : list instr) (fs : gset string) : dstate :=
  mkD prog false [] true WLoop fs [] [].

Definition dump_program (files : list string) : list instr :=
  map ISend files ++ shutdown.

Definition attempted_file (e : dlog) : string :=
  match e with
  | LRemoved f | LRemoveFailed f => f
  end.

Definition attempted (lg : list dlog) : list string := map attempted_file lg.

Definition in_flight (w : wpc) : list string :=
  match w with
  | WGot f | WDel f => [f]
  | _ => []
  end.

(* ------------------------------------------------------------------ *)
(** ** Predicates used to state the properties *)


(** [s] contains the character [a]. *)
Fixpoint has_char (a : ascii) (s : string) : bool :=
  match s with
  | EmptyString => false
  | String c s' => Ascii.eqb c a || has_char a s'
  end.


(** Every byte of [s] is a continuation byte. *)
Fixpoint all_cont (s : string) : bool :=
  match s with
  | EmptyString => true
  | String a s' => is_cont a && all_cont s'
  end.

(** [s] starts with a byte that is not a continuation byte. *)
Definition starts_lead (s : string) : bool :=
  match s with
  | String a _ => negb (is_cont a)
  | EmptyString => false
  end.

(** [c] is one character as [chars] gives it: a byte followed by
    continuation bytes. *)
Definition char_bytes (c : string) : bool :=
  match c with
  | String _ r => all_cont r
  | EmptyString => false
  end.


(** The filenames a main-thread program still has to send. *)
Definition sends_of (prog : list instr) : list string :=
  omap (fun i => match i with ISend f => Some f | _ => None end) prog.

(** Two states that differ at most in which files exist and in whether
    each attempted deletion succeeded. *)
Definition same_but_fs (s t : dstate) : Prop :=
  d_main s = d_main t /\ d_panicked s = d_panicked t /\ d_queue s = d_queue t /\
  d_sender_alive s = d_sender_alive t /\ d_worker s = d_worker t /\
  d_sent s = d_sent t /\ attempted (d_log s) = attempted (d_log t).

(* ------------------------------------------------------------------ *)
(** ** List helpers *)

(** The longest prefix of [l] whose elements satisfy [p]. *)
Fixpoint take_while {A} (p : A -> bool) (l : list A) : list A :=
  match l with
  | [] => []
  | x :: l' => if p x then x :: take_while p l' else []
  end.

(** The main thread is about to run [shutdown] while the worker waits on
    an empty channel: every filename sent so far has been handled. *)
Definition drained (s : dstate) : Prop :=
  d_main s = shutdown /\ d_panicked s = false /\ d_queue s = [] /\
  d_sender_alive s = true /\ d_worker s = WLoop.

(** Neither thread can take a step. *)
Definition terminal (s : dstate) : Prop := forall u, ~ dstep s u.

(* ------------------------------------------------------------------ *)
(** ** [Pbs::new] and the [submit] methods (pbs.rs) *)

(** [Pbs::new]. *)
Definition Pbs_new (chunk_size job_limit sleep_int : nat) (dir : string)
    (no_del : bool) (template : option string) : Pbs :=
  {| pbs_chunk_size := chunk_size; pbs_job_limit := job_limit;
     pbs_sleep_int := sleep_int; pbs_dir := dir; pbs_no_del := no_del;
     pbs_template := template |}.

(** [.unwrap()] on the result of [submit_inner]; a [panic!] raised inside
    [submit_inner] propagates. The [Debug] text of the payloads is not
    modelled. *)
Definition unwrap_submit (r : submit_outcome) : outcome string :=
  match r with
  | SubOk id => Ret id
  | SubIoErr e => Panic ("called `Result::unwrap()` on an `Err` value: " +:+ e)
  | SubPanic _ => Panic "qsub failed with output"
  | SubUtf8Err _ => Panic "called `Result::unwrap()` on an `Err` value: Utf8Error"
  end.

(** The body both [submit] implementations share: build the command
    (which may panic before anything runs), then
    [submit_inner(cmd, self.sleep_int).unwrap()]; [exec c k] is what the
    [k]-th [output()] of the command [c] returns. *)
Definition pbs_submit (q : Pbs) (cmd : outcome Command)
    (exec : Command -> nat -> exec_result) : list event * outcome string :=
  match cmd with
  | Panic msg => ([], Panic msg)
  | Ret c =>
      let '(tr, r) := submit_inner (exec c) (pbs_sleep_int q) in (tr, unwrap_submit r)
  end.

(** [<Pbs as Submit<Mopac>>::submit] and [<Pbs as Submit<Molpro>>::submit]. *)
Definition submit_mopac (q : Pbs) (filename : string)
    (exec : Command -> nat -> exec_result) : list event * outcome string :=
  pbs_submit q (submit_command_mopac q filename) exec.

Definition submit_molpro (q : Pbs) (filename : string)
    (exec : Command -> nat -> exec_result) : list event * outcome string :=
  pbs_submit q (submit_command_molpro q filename) exec.

(* ------------------------------------------------------------------ *)
(** ** [Molpro::write_input] (program/molpro.rs)

    [Template] and [Geom] are defined outside the files modelled here.
    [write_input] reads the template's [header], whether the geometry is
    a [Geom::Zmat], and the text [geom_string] renders for it, so a
    [Molpro] is modelled by those. [write_input] returns the name of the
    file it creates and the text it writes there. *)

Inductive Procedure := Opt | Freq | SinglePt.

Record Molpro := {
  molpro_filename : string;
  molpro_header_text : string;   (* [self.template.header] *)
  molpro_charge : Z;             (* an [isize] *)
  molpro_geom_is_zmat : bool;    (* [self.geom] is a [Geom::Zmat] *)
  molpro_geom_string : string    (* [geom_string(&self.geom)] *)
}.

Definition lf : ascii := ascii_of_nat 10.

(** [format!("{}", n)] for an [isize]. *)
Fixpoint nat_digits (fuel n : nat) (acc : string) : string :=
  match fuel with
  | O => acc
  | S fuel' =>
      let acc' := String (ascii_of_nat (48 + n mod 10)%nat) acc in
      if (n <? 10)%nat then acc' else nat_digits fuel' (n / 10)%nat acc'
  end.

Definition fmt_isize (z : Z) : string :=
  let n := Z.to_nat (Z.abs z) in
  let digits := nat_digits (S n) n EmptyString in
  if (z <? 0)%Z then "-" +:+ digits else digits.

(** The case-insensitive letter [lower] of [(?i)optg]. *)
Definition ci_eq (c lower : ascii) : bool :=
  Ascii.eqb c lower || Ascii.eqb c (ascii_of_nat (nat_of_ascii lower - 32)).

(** [\s*] matching all of [s]: every character is whitespace ([\s] is
    the Unicode White_Space class, the characters [char::is_whitespace]
    accepts). *)
Definition all_ws (s : string) : bool := forallb is_whitespace (chars s).

Definition starts_with_comma (s : string) : bool :=
  match s with
  | String c _ => Ascii.eqb c ","
  | EmptyString => false
  end.

(** [(?i)optg(,|\s*$)] matching at the start of [s]: [optg] in any case,
    then a comma, or only whitespace up to the end of the text ([$]
    without the [m] flag). *)
Definition optg_at (s : string) : bool :=
  match s with
  | String o (String p (String t (String g rest))) =>
      ci_eq o "o" && ci_eq p "p" && ci_eq t "t" && ci_eq g "g" &&
      (starts_with_comma rest || all_ws rest)
  | _ => false
  end.

(** [OPTG.is_match]: a match starts at some position of [s]. *)
Fixpoint optg_match (s : string) : bool :=
  optg_at s ||
  match s with
  | EmptyString => false
  | String _ s' => optg_match s'
  end.

(** [OPTG_LINE.is_match]: [(?i)^.*optg(,|\s*$)], a match starting at a
    position reached from the start over characters other than [\n]
    (what [.] matches). *)
Fixpoint optg_line_match (s : string) : bool :=
  optg_at s ||
  match s with
  | EmptyString => false
  | String c s' => negb (Ascii.eqb c lf) && optg_line_match s'
  end.

(** [writeln!] of each line. *)
Fixpoint write_lines (ls : list string) : string :=
  match ls with
  | [] => EmptyString
  | l :: ls' => l +:+ nl +:+ write_lines ls'
  end.

(** The [found_opt] test and the [match proc] block. *)
Definition apply_procedure (proc : Procedure) (body : string) : outcome string :=
  let found_opt := optg_match body in
  match proc with
  | Opt => Ret (if found_opt then body else body +:+ "{optg,grms=1.d-8,srms=1.d-8}" +:+ nl)
  | Freq => Panic "not yet implemented"
  | SinglePt =>
      Ret (if found_opt
           then write_lines (List.filter (fun l => negb (optg_line_match l)) (lines body))
           else body)
  end.

(** The [for line in geom.lines()] loop run for a [Geom::Zmat]. *)
Fixpoint zmat_lines (found : bool) (ls : list string) : string :=
  match ls with
  | [] => EmptyString
  | l :: ls' =>
      if has_char "=" l && negb found
      then "}" +:+ nl +:+ l +:+ nl +:+ zmat_lines true ls'
      else l +:+ nl +:+ zmat_lines found ls'
  end.

(** [Captures::expand] for a pattern without groups: in the replacement,
    [$$] is a [$]; [$name] (the longest run of [[0-9A-Za-z_]]) and
    [${name}] are replaced by the match when [name] parses as the
    [usize] 0 and by nothing otherwise; any other [$] is kept. *)
Definition is_cap_letter (c : ascii) : bool :=
  let n := nat_of_ascii c in
  (((48 <=? n) && (n <=? 57)) || ((97 <=? n) && (n <=? 122)) ||
   ((65 <=? n) && (n <=? 90)) || (n =? 95))%nat.

Fixpoint take_cap_name (s : string) : string * string :=
  match s with
  | EmptyString => (EmptyString, EmptyString)
  | String c s' =>
      if is_cap_letter c then let '(n, r) := take_cap_name s' in (String c n, r)
      else (EmptyString, s)
  end.

Fixpoint take_until_close (s : string) : option (string * string) :=
  match s with
  | EmptyString => None
  | String c s' =>
      if Ascii.eqb c "}" then Some (EmptyString, s')
      else match take_until_close s' with
           | Some (n, r) => Some (String c n, r)
           | None => None
           end
  end.

Fixpoint all_zeros (s : string) : bool :=
  match s with
  | EmptyString => true
  | String c s' => Ascii.eqb c "0" && all_zeros s'
  end.

(** [name.parse::<usize>() == Ok(0)]. *)
Definition parses_to_zero (name : string) : bool :=
  let digits := match name with
                | String c d => if Ascii.eqb c "+" then d else name
                | EmptyString => name
                end in
  negb (String.eqb digits EmptyString) && all_zeros digits.

Definition group_text (matched name : string) : string :=
  if parses_to_zero name then matched else EmptyString.

Fixpoint expand_fuel (fuel : nat) (matched rep : string) : string :=
  match fuel with
  | O => rep
  | S fuel' =>
      match rep with
      | EmptyString => EmptyString
      | String c rest =>
          if negb (Ascii.eqb c "$") then String c (expand_fuel fuel' matched rest)
          else match rest with
               | EmptyString => "$"
               | String c2 rest2 =>
                   if Ascii.eqb c2 "$" then "$" +:+ expand_fuel fuel' matched rest2
                   else if Ascii.eqb c2 "{" then
                     match take_until_close rest2 with
                     | Some (name, after) => group_text matched name +:+ expand_fuel fuel' matched after
                     | None => "$" +:+ expand_fuel fuel' matched rest
                     end
                   else
                     let '(name, after) := take_cap_name rest in
                     if String.eqb name EmptyString then "$" +:+ expand_fuel fuel' matched rest
                     else group_text matched name +:+ expand_fuel fuel' matched after
               end
      end
  end.

Definition expand (matched rep : string) : string :=
  expand_fuel (S (String.length rep)) matched rep.

(** [\{\{.name\}\}] matching at the start of [s]: [{{], one character
    other than [\n] (all of its bytes), then [name}}]; the length in
    bytes of the match, if there is one. *)
Definition placeholder_at (name s : string) : option nat :=
  match s with
  | String a (String b r) =>
      if Ascii.eqb a "{" && Ascii.eqb b "{" then
        match next_char r with
        | Some (c, r') =>
            if negb (String.eqb c nl) && String.prefix (name +:+ "}}") r'
            then Some (2 + String.length c + String.length name + 2)%nat
            else None
        | None => None
        end
      else None
  | _ => None
  end.

(** [Regex::replace] for a pattern recognised by [is_at] (which gives
    the length of the match starting at the start of its argument): the
    leftmost match only is replaced by the expansion of [rep]; without a
    match the text is returned unchanged. *)
Fixpoint regex_replace (is_at : string -> option nat) (rep s : string) : string :=
  match is_at s with
  | Some len => expand (substring 0 len s) rep +:+ substring len (String.length s - len) s
  | None =>
      match s with
      | EmptyString => EmptyString
      | String c s' => String c (regex_replace is_at rep s')
      end
  end.

(** [GEOM.replace] and [CHARGE.replace]. *)
Definition placeholder_replace (name rep s : string) : string :=
  regex_replace (placeholder_at name) rep s.

(** [<Molpro as Program>::extension]. *)
Definition extension : string := "inp".

(** What [File::create] and [write!] do on the file system: the error
    [File::create] returns for a file name, if it fails, and whether
    writing a text to the file created succeeds. *)
Record InputFs := {
  create_err : string -> option string;
  write_ok : string -> string -> bool
}.

(** [<Molpro as Program>::write_input]: the file name and the text
    written to it, or the panic of a failed [File::create] or [write!]. *)
Definition write_input (fs : InputFs) (m : Molpro) (proc : Procedure)
    : outcome (string * string) :=
  body ← apply_procedure proc (molpro_header_text m);
  let geom := if molpro_geom_is_zmat m
              then zmat_lines false (lines (molpro_geom_string m))
              else molpro_geom_string m in
  let body := placeholder_replace "geom" geom body in
  let body := placeholder_replace "charge" (fmt_isize (molpro_charge m)) body in
  let filename := molpro_filename m +:+ "." +:+ extension in
  match create_err fs filename with
  | Some e => Panic ("failed to create " +:+ filename +:+ " with " +:+ e)
  | None =>
      if write_ok fs filename body then Ret (filename, body)
      else Panic "failed to write input file"
  end.

(** [<Molpro as Program>::associated_files]. *)
Definition associated_files (m : Molpro) : list string :=
  [molpro_filename m +:+ ".inp"; molpro_filename m +:+ ".out"].

(* ------------------------------------------------------------------ *)
(** ** Sample inputs *)

(** A [qsub] run that exits non-zero, and one that accepts the script. *)
Definition qsub_rejected : Output :=
  {| success := false; stdout := EmptyString; stderr := "qsub: server busy" |}.

Definition qsub_accepted : Output :=
  {| success := true; stdout := "your job 12345 submitted"; stderr := EmptyString |}.

(** A run whose stdout ends in a no-break space (U+00A0, bytes C2 A0),
    and one whose stdout is not UTF-8 (a Latin-1 [e] acute, byte E9). *)
Definition nbsp : string := String (ascii_of_nat 194) (String (ascii_of_nat 160) EmptyString).



(** Two states of [Dump] runs: for [send("a")], [send("b")],
    [shutdown()] with only [b] on disk, the state when [shutdown] starts
    after the worker has tried to delete [a] (which fails) and deleted
    [b]; for [send("a")], [shutdown()] with [a] on disk, the state where
    the main thread has panicked in [signal.send(())] because the worker
    had already drained the channel and exited. *)
Definition dump_sample_run : dstate :=
  mkD shutdown false [] true WLoop ({["b"]} ∖ {["b"]}) ["a"; "b"]
      [LRemoveFailed "a"; LRemoved "b"].

Definition dump_sample_panic : dstate :=
  mkD [ISignal; IDropSignal; IJoin] true [] false WExited ({["a"]} ∖ {["a"]}) ["a"]
      [LRemoved "a"].

(** The character U+00E9 (bytes C3 A9). *)
Definition e_acute : string := String (ascii_of_nat 195) (String (ascii_of_nat 169) EmptyString).

(** Rejected [n] times, then accepted. *)
Definition accepted_after (n : nat) : nat -> exec_result :=
  fun i => if (i <? n)%nat then ExecOk qsub_rejected else ExecOk qsub_accepted.

(** The [qstat -u $USER] output shown in the doc comment of [stat_cmd]. *)
Definition qstat_maple : string :=
"maple:
                                                            Req'd  Req'd   Elap
Job ID          Username Queue    Jobname    SessID NDS TSK Memory Time  S Time
--------------- -------- -------- ---------- ------ --- --- ------ ----- - -----
819446          user     queue    C6HNpts      5085   1   1    8gb 26784 R 00:00
".

(** The same table with a divider drawn as one run of dashes. *)
Definition qstat_solid_divider : string :=
"Job ID          Username Queue    Jobname    SessID NDS TSK Memory Time  S Time
-------------------------------------------------------------------------------
819446          user     queue    C6HNpts      5085   1   1    8gb 26784 R 00:00
".

(** A caller-supplied template using both placeholders. *)
Definition pbs_with_template : Pbs :=
  Build_Pbs 100 200 30 "pts" false
    (Some ("#PBS -N {{.basename}}" +:+ nl +:+ "#PBS -o {{.filename}}.out" +:+ nl)).

(* ================================================================== *)
(** * Properties *)

Local Open Scope list_scope.

(* ------------------------------------------------------------------ *)
(** ** Job-id extraction *)


Lemma append_String c s t : String c s +:+ t = String c (s +:+ t).
Proof. reflexivity. Qed.

Lemma append_nil_l s : EmptyString +:+ s = s.
Proof. reflexivity. Qed.


Lemma append_assoc_s a b c : (a +:+ b) +:+ c = a +:+ b +:+ c.
Proof. induction a as [|x a IH]; [reflexivity|]. rewrite !append_String. f_equal. exact IH. Qed.

Lemma length_append_s a b : String.length (a +:+ b) = String.length a + String.length b.
Proof. induction a as [|x a IH]; [reflexivity|]. rewrite append_String. simpl. lia. Qed.


(** *** Grouping bytes into characters *)



Lemma concat_chars_chars s : concat_chars (chars s) = s.
Proof.
  assert (fst (chars_aux s) +:+ concat_chars (snd (chars_aux s)) = s) as H.
  { induction s as [|a s IH]; [reflexivity|]. simpl.
    destruct (chars_aux s) as [c cs]. simpl in *.
    destruct (is_cont a); simpl; rewrite ?append_nil_l, ?append_String, IH; reflexivity. }
  unfold chars. destruct (chars_aux s) as [c cs]. simpl in H.
  destruct c; exact H.
Qed.








(** *** Splitting at whitespace *)






(* ------------------------------------------------------------------ *)
(** ** The retry loop of [submit_inner] *)

Section SubmitLoop.
Variable run : nat -> exec_result.
Variable sleep_secs : nat.

Lemma submit_loop_all_fail (outs : nat -> Output) r k :
  (forall i, k <= i <= k + r -> run i = ExecOk (outs i) /\ success (outs i) = false) ->
  submit_loop run sleep_secs r k =
    (flat_map (fun i => [EvExec i; EvRetryLog (outs i) (k + r - i); EvSleep sleep_secs])
              (seq k r) ++ [EvExec (k + r)],
     SubPanic (outs (k + r))).
Proof.
  revert k. induction r as [|r IH]; intros k H.
  - destruct (H k) as [Hr Hs]; [lia|]. rewrite Nat.add_0_r.
    simpl. rewrite Hr, Hs. reflexivity.
  - destruct (H k) as [Hr Hs]; [lia|].
    simpl. rewrite Hr, Hs.
    rewrite (IH (S k)) by (intros i Hi; apply H; lia).
    replace (S k + r) with (k + S r) by lia.
    replace (k + S r - k) with (S r) by lia.
    reflexivity.
Qed.

Lemma submit_loop_success r k j o :
  k <= j <= k + r ->
  (forall i, k <= i < j -> failed_run run i) ->
  run j = ExecOk o -> success o = true ->
  snd (submit_loop run sleep_secs r k) = accept o.
Proof.
  revert k. induction r as [|r IH]; intros k Hj Hf Hr Hs.
  - assert (j = k) as -> by lia. simpl. rewrite Hr, Hs. reflexivity.
  - destruct (decide (j = k)) as [->|Hne].
    + simpl. rewrite Hr, Hs. reflexivity.
    + destruct (Hf k) as (o' & Hr' & Hs'); [lia|].
      simpl. rewrite Hr', Hs'.
      pose proof (IH (S k) ltac:(lia) ltac:(intros i Hi; apply Hf; lia) Hr Hs) as E.
      destruct (submit_loop run sleep_secs r (S k)). exact E.
Qed.

Lemma submit_loop_panic r k o :
  snd (submit_loop run sleep_secs r k) = SubPanic o ->
  (forall i, k <= i <= k + r -> failed_run run i) /\ run (k + r) = ExecOk o.
Proof.
  revert k. induction r as [|r IH]; intros k H; simpl in H.
  - destruct (run k) as [o'|e] eqn:Hr; [|discriminate].
    destruct (success o') eqn:Hs; simpl in H;
      [unfold accept in H; destruct (from_utf8 (stdout o')); discriminate|].
    injection H as <-. rewrite Nat.add_0_r. split; [|exact Hr].
    intros i Hi. assert (i = k) as -> by lia. exists o'. auto.
  - destruct (run k) as [o'|e] eqn:Hr; [|discriminate].
    destruct (success o') eqn:Hs;
      [simpl in H; unfold accept in H; destruct (from_utf8 (stdout o')); discriminate|].
    destruct (submit_loop run sleep_secs r (S k)) as [tr res] eqn:E.
    simpl in H. subst res.
    destruct (IH (S k)) as [Hall Hlast]; [rewrite E; reflexivity|].
    split.
    + intros i Hi. destruct (decide (i = k)) as [->|Hne].
      * exists o'. auto.
      * apply Hall. lia.
    + replace (k + S r) with (S k + r) by lia. exact Hlast.
Qed.

(** A result other than [SubPanic] comes from the first run that did
    not exit non-zero, within the retry budget. *)
Lemma submit_loop_stop r k :
  (exists o, snd (submit_loop run sleep_secs r k) = SubPanic o) \/
  exists j, k <= j <= k + r /\ (forall i, k <= i < j -> failed_run run i) /\
    ((exists o, run j = ExecOk o /\ success o = true /\
        snd (submit_loop run sleep_secs r k) = accept o) \/
     (exists e, run j = ExecErr e /\ snd (submit_loop run sleep_secs r k) = SubIoErr e)).
Proof.
  revert k. induction r as [|r IH]; intros k; simpl.
  - destruct (run k) as [o|e] eqn:Hr.
    + destruct (success o) eqn:Hs; simpl.
      * right. exists k. split; [lia|]. split; [intros i Hi; lia|]. left. eauto.
      * left. eauto.
    + right. exists k. split; [lia|]. split; [intros i Hi; lia|]. right. eauto.
  - destruct (run k) as [o|e] eqn:Hr.
    + destruct (success o) eqn:Hs; simpl.
      * right. exists k. split; [lia|]. split; [intros i Hi; lia|]. left. eauto.
      * destruct (IH (S k)) as [(o' & Ho')|(j & Hj & Hf & Hend)];
          destruct (submit_loop run sleep_secs r (S k)) as [tr res]; simpl in *.
        -- left. eauto.
        -- right. exists j. split; [lia|]. split; [|exact Hend].
           intros i Hi. destruct (decide (i = k)) as [->|Hne]; [exists o; auto|].
           apply Hf. lia.
    + right. exists k. split; [lia|]. split; [intros i Hi; lia|]. right. eauto.
Qed.


Lemma submit_loop_utf8 r k o :
  snd (submit_loop run sleep_secs r k) = SubUtf8Err o ->
  exists j, k <= j <= k + r /\ (forall i, k <= i < j -> failed_run run i) /\
    run j = ExecOk o /\ success o = true /\ from_utf8 (stdout o) = None.
Proof.
  intros H. destruct (submit_loop_stop r k) as [(o' & Ho)|(j & Hj & Hf & [(o' & Hr & Hs & E)|(e & _ & E)])];
    rewrite H in *; try discriminate.
  unfold accept in E. destruct (from_utf8 (stdout o')) as [raw|] eqn:Hu; [discriminate|].
  injection E as <-. exists j. repeat split; try assumption; lia.
Qed.

(** After [j] runs that exit non-zero the loop is where it would start
    with [j] fewer retries, each of those runs having been followed by
    the retry message and a sleep. *)
Lemma submit_loop_prefix (outs : nat -> Output) j : forall r k,
  j <= r ->
  (forall i, k <= i < k + j -> run i = ExecOk (outs i) /\ success (outs i) = false) ->
  submit_loop run sleep_secs r k =
    (flat_map (fun i => [EvExec i; EvRetryLog (outs i) (k + r - i); EvSleep sleep_secs])
              (seq k j) ++ fst (submit_loop run sleep_secs (r - j) (k + j)),
     snd (submit_loop run sleep_secs (r - j) (k + j))).
Proof.
  induction j as [|j IH]; intros r k Hj Hf.
  - rewrite Nat.sub_0_r, Nat.add_0_r. simpl. destruct (submit_loop run sleep_secs r k). reflexivity.
  - destruct r as [|r]; [lia|].
    destruct (Hf k) as [Hr Hs]; [lia|].
    simpl. rewrite Hr, Hs.
    rewrite (IH r (S k) ltac:(lia) ltac:(intros i Hi; apply Hf; lia)).
    replace (S k + r) with (k + S r) by lia.
    replace (k + S r - k) with (S r) by lia.
    replace (S k + j) with (k + S j) by lia.
    reflexivity.
Qed.
End SubmitLoop.




(** C3: when every run exits non-zero, [submit_inner] runs the command
    6 times (5 retries), sleeping [sleep_int] seconds after each of the
    first 5 failures, and panics with the output of the last run; it
    panics that way only when all 6 runs failed; a success at attempt
    [j] gives what an immediate success with the same output gives: the
    same job id, or, when that stdout is not UTF-8, the same panic of
    [from_utf8(..).unwrap()], the only other way the loop panics. *)
Theorem submit_inner_retries (run : nat -> exec_result) (secs : nat) :
  (forall outs : nat -> Output,
     (forall i, i <= 5 -> run i = ExecOk (outs i) /\ success (outs i) = false) ->
     submit_inner run secs =
       (flat_map (fun i => [EvExec i; EvRetryLog (outs i) (5 - i); EvSleep secs])
                 (seq 0 5) ++ [EvExec 5],
        SubPanic (outs 5))) /\
  (forall o, snd (submit_inner run secs) = SubPanic o ->
     (forall i, i <= 5 -> failed_run run i) /\ run 5 = ExecOk o) /\
  (forall j o, j <= 5 -> (forall i, i < j -> failed_run run i) ->
     run j = ExecOk o -> success o = true ->
     snd (submit_inner run secs) = snd (submit_inner (fun _ => ExecOk o) secs) /\
     (forall raw, from_utf8 (stdout o) = Some raw ->
        snd (submit_inner (fun _ => ExecOk o) secs) = SubOk (extract_jobid raw)) /\
     (from_utf8 (stdout o) = None ->
        snd (submit_inner (fun _ => ExecOk o) secs) = SubUtf8Err o)) /\
  (forall o, snd (submit_inner run secs) = SubUtf8Err o ->
     exists j, j <= 5 /\ run j = ExecOk o /\ success o = true /\ from_utf8 (stdout o) = None).
Proof.
  split; [|split; [|split]].
  - intros outs H. apply (submit_loop_all_fail run secs outs 5 0).
    intros i Hi. apply H. lia.
  - intros o H. destruct (submit_loop_panic run secs 5 0 o H) as [Hall Hlast].
    split; [|exact Hlast]. intros i Hi. apply Hall. lia.
  - intros j o Hj Hf Hr Hs.
    assert (snd (submit_inner (fun _ => ExecOk o) secs) = accept o) as Himm.
    { apply (submit_loop_success (fun _ => ExecOk o) secs 5 0 0 o);
        [lia|intros i Hi; lia|reflexivity|exact Hs]. }
    split; [|split].
    + rewrite Himm. apply (submit_loop_success run secs 5 0 j o);
        [lia|intros i Hi; apply Hf; lia|exact Hr|exact Hs].
    + intros raw Hu. rewrite Himm. unfold accept. rewrite Hu. reflexivity.
    + intros Hu. rewrite Himm. unfold accept. rewrite Hu. reflexivity.
  - intros o H. destruct (submit_loop_utf8 run secs 5 0 o H) as (j & Hj & _ & Hr & Hs & Hu).
    exists j. repeat split; try assumption; lia.
Qed.

Lemma submit_inner_retries_witness :
  submit_inner (fun _ => ExecOk qsub_rejected) 30 =
    (flat_map (fun i => [EvExec i; EvRetryLog qsub_rejected (5 - i); EvSleep 30])
              (seq 0 5) ++ [EvExec 5],
     SubPanic qsub_rejected) /\
  (snd (submit_inner (accepted_after 3) 30) = snd (submit_inner (fun _ => ExecOk qsub_accepted) 30) /\
   (forall raw, from_utf8 (stdout qsub_accepted) = Some raw ->
      snd (submit_inner (fun _ => ExecOk qsub_accepted) 30) = SubOk (extract_jobid raw)) /\
   (from_utf8 (stdout qsub_accepted) = None ->
      snd (submit_inner (fun _ => ExecOk qsub_accepted) 30) = SubUtf8Err qsub_accepted)).
Proof.
  split.
  - apply (proj1 (submit_inner_retries (fun _ => ExecOk qsub_rejected) 30) (fun _ => qsub_rejected)).
    intros i _. split; reflexivity.
  - apply (proj1 (proj2 (proj2 (submit_inner_retries (accepted_after 3) 30))) 3 qsub_accepted).
    + lia.
    + intros i Hi. exists qsub_rejected. unfold accepted_after.
      destruct (Nat.ltb_spec i 3); [split; reflexivity|lia].
    + reflexivity.
    + reflexivity.
Defined.

(* ------------------------------------------------------------------ *)
(** ** The Molpro submit command *)

Lemma split_char_aux_no_sep sep s :
  has_char sep (fst (split_char_aux sep s)) = false /\
  Forall (fun w => has_char sep w = false) (snd (split_char_aux sep s)).
Proof.
  induction s as [|c s IH]; simpl; [auto|].
  destruct (split_char_aux sep s) as [w ws]. simpl in IH. destruct IH as [Hw Hws].
  destruct (Ascii.eqb c sep) eqn:Hc; simpl.
  - split; [reflexivity|]. constructor; assumption.
  - rewrite Hc, Hw. auto.
Qed.

Lemma split_char_no_sep sep s :
  Forall (fun w => has_char sep w = false) (split_char sep s).
Proof.
  unfold split_char. pose proof (split_char_aux_no_sep sep s) as [Hw Hws].
  destruct (split_char_aux sep s) as [w ws]. constructor; assumption.
Qed.

Lemma drop_while_head {A} (f : A -> bool) l x l' :
  drop_while f l = x :: l' -> f x = false /\ x ∈ l.
Proof.
  induction l as [|y l IH]; simpl; [discriminate|].
  destruct (f y) eqn:Hy.
  - intros H. destruct (IH H) as [Hx Hin]. split; [exact Hx|]. by apply elem_of_cons; right.
  - intros [= -> ->]. split; [exact Hy|]. apply elem_of_cons. by left.
Qed.

Lemma file_name_parent p b :
  file_name p = Some b ->
  exists d, parent p = Some d /\ has_char "/" b = false /\ b <> EmptyString.
Proof.
  unfold file_name, parent, next_back.
  set (body := substring (len_before_body p) (String.length p - len_before_body p) p).
  destruct (drop_while skippable_segment (rev (split_char "/" body))) as [|seg rxs] eqn:E.
  - destruct (path_include_cur_dir p); [discriminate|].
    destruct (path_has_root p); discriminate.
  - destruct (String.eqb seg "..") eqn:Hdd; [discriminate|].
    intros [= <-]. eexists; split; [reflexivity|].
    destruct (drop_while_head _ _ _ _ E) as [Hskip Hin].
    pose proof (split_char_no_sep "/" body) as Hall.
    rewrite Forall_forall in Hall. split.
    + apply Hall. apply list_elem_of_In. apply in_rev.
      apply list_elem_of_In. exact Hin.
    + intros ->. discriminate.
Qed.

Lemma has_char_not_eq a s b : has_char a s = true -> has_char a b = false -> b <> s.
Proof. intros Hs Hb ->. congruence. Qed.

(** C5: for every script path (a path naming a file, i.e. one with a
    final file name [b]), the Molpro submit runs [qsub] in the path's
    parent directory with [b] as its only argument; [b] contains no
    [/], so it is never a path into another directory. A path without
    a file name makes [submit] panic before running anything. *)
Theorem molpro_submit_from_dir (q : Pbs) (p : string) :
  (forall b, file_name p = Some b ->
     exists d, parent p = Some d /\
       submit_command_molpro q p =
         Ret {| program := "qsub"; args := [b]; current_dir := Some d |} /\
       has_char "/" b = false /\ b <> EmptyString /\
       (has_char "/" p = true -> b <> p)) /\
  (file_name p = None -> exists msg, submit_command_molpro q p = Panic msg).
Proof.
  split.
  - intros b Hb. destruct (file_name_parent p b Hb) as (d & Hd & Hslash & Hne).
    exists d. split; [exact Hd|]. split.
    + unfold submit_command_molpro. rewrite Hd, Hb. reflexivity.
    + split; [exact Hslash|]. split; [exact Hne|].
      intros Hp. exact (has_char_not_eq "/" p b Hp Hslash).
  - intros Hn. unfold submit_command_molpro.
    destruct (parent p); simpl; [rewrite Hn|]; eexists; reflexivity.
Qed.

Lemma molpro_submit_from_dir_witness :
  exists d, parent "jobs/pts/main0.pbs" = Some d /\
    submit_command_molpro (Build_Pbs 100 200 30 "pts" false None) "jobs/pts/main0.pbs" =
      Ret {| program := "qsub"; args := ["main0.pbs"]; current_dir := Some d |} /\
    has_char "/" "main0.pbs" = false /\ "main0.pbs" <> EmptyString /\
    (has_char "/" "jobs/pts/main0.pbs" = true -> "main0.pbs" <> "jobs/pts/main0.pbs").
Proof.
  apply (proj1 (molpro_submit_from_dir (Build_Pbs 100 200 30 "pts" false None)
                  "jobs/pts/main0.pbs") "main0.pbs").
  vm_compute. reflexivity.
Defined.

(* ------------------------------------------------------------------ *)
(** ** The [qstat] parser *)

(** [status_loop] asserts the field count on every line it is given and
    collects the first fields. *)
Lemma status_loop_ok ls ret :
  Forall (fun l => length (split_whitespace l) = 11) ls ->
  status_loop ls ret =
    Ret (list_to_set (omap head (map split_whitespace ls)) ∪ ret).
Proof.
  revert ret. induction ls as [|l ls IH]; intros ret Hall; simpl.
  - f_equal. set_solver.
  - apply Forall_cons in Hall as [Hl Hls]. rewrite Hl. simpl.
    destruct (split_whitespace l) as [|f0 fs]; [discriminate|]. simpl.
    rewrite (IH _ Hls). f_equal. set_solver.
Qed.

Lemma status_loop_panics ls ret :
  (exists msg, status_loop ls ret = Panic msg) <->
  Exists (fun l => length (split_whitespace l) <> 11) ls.
Proof.
  revert ret. induction ls as [|l ls IH]; intros ret; simpl.
  - split; [intros [msg H]; discriminate|intros H; inversion H].
  - rewrite Exists_cons. destruct (Nat.eqb_spec (length (split_whitespace l)) 11) as [H11|H11].
    + simpl. destruct (split_whitespace l) as [|f0 fs]; [discriminate|].
      rewrite IH. split; [auto|]. intros [Hc|Hc]; [contradiction|exact Hc].
    + simpl. split; [auto|]. intros _. eexists; reflexivity.
Qed.

(** [Pbs::status] keeps the divider line itself: [skip_while] stops at it
    and the loop parses it as a row. *)
Lemma status_from_divider pre div rows :
  Forall (fun l => contains l divider = false) pre ->
  contains div divider = true ->
  drop_while (fun l => negb (contains l divider)) (pre ++ div :: rows) = div :: rows.
Proof.
  induction pre as [|l pre IH]; intros Hpre Hdiv; simpl.
  - rewrite Hdiv. reflexivity.
  - apply Forall_cons in Hpre as [Hl Hpre]. rewrite Hl. simpl. exact (IH Hpre Hdiv).
Qed.

(** C1: when the status text is preamble lines without the dashed
    pattern, a divider line with it, and rows, all of the divider and
    rows having 11 fields, [Pbs::status] returns the first fields of the
    divider AND of the rows: the divider row is not skipped. On the
    table of the [stat_cmd] doc comment (one data row) the result is
    the two-element set of ["819446"] and the divider's
    ["---------------"]. *)
Theorem status_keeps_divider :
  (forall out pre div rows,
     lines out = pre ++ div :: rows ->
     Forall (fun l => contains l divider = false) pre ->
     contains div divider = true ->
     Forall (fun l => length (split_whitespace l) = 11) (div :: rows) ->
     status out = Ret (list_to_set (omap head (map split_whitespace (div :: rows))))) /\
  status qstat_maple = Ret ({["---------------"]} ∪ {["819446"]}) /\
  "---------------" ∈ ({["---------------"]} ∪ {["819446"]} : gset string) /\
  size ({["---------------"]} ∪ {["819446"]} : gset string) = 2.
Proof.
  split; [|split; [vm_compute; reflexivity|]].
  - intros out pre div rows Hl Hpre Hdiv H11.
    unfold status. rewrite Hl, (status_from_divider pre div rows Hpre Hdiv).
    rewrite (status_loop_ok _ _ H11). f_equal. set_solver.
  - split; [set_solver|].
    rewrite size_union by set_solver. rewrite !size_singleton. reflexivity.
Qed.

Lemma status_keeps_divider_witness :
  status qstat_maple =
    Ret (list_to_set (omap head (map split_whitespace
      ["--------------- -------- -------- ---------- ------ --- --- ------ ----- - -----";
       "819446          user     queue    C6HNpts      5085   1   1    8gb 26784 R 00:00"]))).
Proof.
  apply (proj1 status_keeps_divider qstat_maple
    ["maple:";
     "                                                            Req'd  Req'd   Elap";
     "Job ID          Username Queue    Jobname    SessID NDS TSK Memory Time  S Time"]
    "--------------- -------- -------- ---------- ------ --- --- ------ ----- - -----"
    ["819446          user     queue    C6HNpts      5085   1   1    8gb 26784 R 00:00"]).
  - vm_compute. reflexivity.
  - repeat (apply List.Forall_cons; [vm_compute; reflexivity|]). apply List.Forall_nil.
  - vm_compute. reflexivity.
  - repeat (apply List.Forall_cons; [vm_compute; reflexivity|]). apply List.Forall_nil.
Defined.

(** C7: [Pbs::status] fails its assertion exactly when some line from
    the divider line on, the divider itself included, does not have 11
    fields. So a divider that does not split into 11 fields makes it
    fail although the only row after the divider has 11 fields. *)
Theorem status_asserts_on_divider :
  (forall out, (exists msg, status out = Panic msg) <->
     Exists (fun l => length (split_whitespace l) <> 11)
       (drop_while (fun l => negb (contains l divider)) (lines out))) /\
  status qstat_solid_divider = Panic "assertion failed: fields.len() == 11" /\
  forallb (fun l => Nat.eqb (length (split_whitespace l)) 11)
    (tail (drop_while (fun l => negb (contains l divider)) (lines qstat_solid_divider)))
    = true.
Proof.
  split; [|split; vm_compute; reflexivity].
  intros out. unfold status. apply status_loop_panics.
Qed.

Lemma status_asserts_on_divider_witness :
  exists msg, status qstat_solid_divider = Panic msg.
Proof.
  apply (proj2 (proj1 status_asserts_on_divider qstat_solid_divider)).
  vm_compute. apply List.Exists_cons_hd. discriminate.
Defined.

(* ------------------------------------------------------------------ *)
(** ** Submit-script headers *)

(** C6: with a caller template using both placeholders, the Mopac
    script has [{{.filename}}] replaced by the script path, while the
    Molpro script keeps [{{.filename}}] verbatim (only [{{.basename}}]
    is replaced). *)
Theorem molpro_header_keeps_filename_token :
  write_submit_script_molpro pbs_with_template [] "pts/main0.pbs" =
    Ret ("#PBS -N main0.pbs" +:+ nl +:+ "#PBS -o {{.filename}}.out" +:+ nl +:+
         "rm -rf $TMPDIR" +:+ nl) /\
  write_submit_script_mopac pbs_with_template [] "pts/main0.pbs" =
    Ret ("#PBS -N main0.pbs" +:+ nl +:+ "#PBS -o pts/main0.pbs.out" +:+ nl).
Proof. split; vm_compute; reflexivity. Qed.

(* ------------------------------------------------------------------ *)
(** ** The [Local] queue *)

(** C8: [<Local as SubQueue<P>>::status] panics on every file system:
    either a [read_dir]/[read_to_string] unwrap fails or the final
    [panic!] is reached; it never returns a set of ids. *)
Theorem local_status_panics (fs : LocalFs) (err : list string) :
  (exists err' msg, local_status fs err = (err', Panic msg)) /\
  (forall ids, snd (local_status fs err) <> Ret ids).
Proof.
  unfold local_status, io_bind, io_panic.
  destruct (print_dirs fs ["opt"; "pts"; "freqs"] err) as [err' [u|msg]].
  - split; [eexists _, _; reflexivity|]. intros ids. discriminate.
  - split; [eexists _, _; reflexivity|]. intros ids. discriminate.
Qed.

Lemma local_status_panics_witness :
  (exists err' msg, local_status {| fs_read_dir := fun _ => Some [];
                                    fs_read_to_string := fun _ => None |} [] =
                    (err', Panic msg)) /\
  (forall ids, snd (local_status {| fs_read_dir := fun _ => Some [];
                                    fs_read_to_string := fun _ => None |} []) <> Ret ids).
Proof.
  apply (local_status_panics {| fs_read_dir := fun _ => Some [];
                                fs_read_to_string := fun _ => None |} []).
Defined.

(** C10: [Local::new] ignores [job_limit], [sleep_int], [no_del] and
    [template]: the queue reports 1600, 1 and [false] whatever was
    passed, and the queue built does not depend on those arguments. *)
Theorem local_new_ignores_args (cs jl si : nat) (d : string) (nd : bool)
    (t : option string) :
  job_limit (Local_new cs jl si d nd t) = 1600 /\
  sleep_int (Local_new cs jl si d nd t) = 1 /\
  no_del (Local_new cs jl si d nd t) = false /\
  Local_new cs jl si d nd t = Local_new cs 0 0 d false None.
Proof. repeat split. Qed.

(* ------------------------------------------------------------------ *)
(** ** The [Dump] worker *)

Lemma sends_of_program files : sends_of (dump_program files) = files.
Proof.
  unfold sends_of, dump_program.
  induction files as [|f files IH]; [reflexivity|]. simpl. f_equal. exact IH.
Qed.

Lemma attempted_snoc lg e : attempted (lg ++ [e]) = attempted lg ++ [attempted_file e].
Proof. unfold attempted. by rewrite map_app. Qed.

(** Attempted deletions, the file being handled and the queue are, in
    order, exactly the files sent while the worker runs; after it exits
    the attempted deletions stay a prefix of the files sent. *)
Definition dump_inv (files : list string) (s : dstate) : Prop :=
  (d_worker s <> WExited ->
     attempted (d_log s) ++ in_flight (d_worker s) ++ d_queue s = d_sent s) /\
  attempted (d_log s) `prefix_of` d_sent s /\
  d_sent s ++ sends_of (d_main s) = files.

Lemma dump_inv_init files fs : dump_inv files (dump_init (dump_program files) fs).
Proof.
  split; [|split].
  - intros _. reflexivity.
  - apply prefix_nil.
  - simpl. apply sends_of_program.
Qed.

Lemma dump_inv_step files s s' : dstep s s' -> dump_inv files s -> dump_inv files s'.
Proof.
  intros Hstep. destruct Hstep; intros (Hrun & Hpre & Hsent);
    unfold dump_inv; simpl in *.
  - (* send *)
    split; [|split].
    + intros _. rewrite <- (Hrun H). by rewrite !app_assoc.
    + by apply prefix_app_r.
    + rewrite <- Hsent. by rewrite <- app_assoc.
  - auto.
  - auto.
  - split; [congruence|auto].
  - auto.
  - auto.
  - auto.
  - (* recv *)
    split; [|split]; [|exact Hpre|exact Hsent].
    intros _. rewrite <- (Hrun ltac:(discriminate)). reflexivity.
  - split; [congruence|auto].
  - split; [|split]; [|exact Hpre|exact Hsent].
    intros _. rewrite <- (Hrun ltac:(discriminate)). reflexivity.
  - (* remove ok *)
    rewrite attempted_snoc. simpl.
    specialize (Hrun ltac:(discriminate)). simpl in Hrun.
    split; [|split]; [|exists q; rewrite <- Hrun; by rewrite <- app_assoc|exact Hsent].
    intros _. rewrite <- Hrun. by rewrite <- app_assoc.
  - (* remove failed *)
    rewrite attempted_snoc. simpl.
    specialize (Hrun ltac:(discriminate)). simpl in Hrun.
    split; [|split]; [|exists q; rewrite <- Hrun; by rewrite <- app_assoc|exact Hsent].
    intros _. rewrite <- Hrun. by rewrite <- app_assoc.
Qed.

Lemma dump_inv_reach files fs s :
  rtc dstep (dump_init (dump_program files) fs) s -> dump_inv files s.
Proof.
  intros Hr. remember (dump_init (dump_program files) fs) as s0 eqn:E.
  assert (dump_inv files s0) as H0 by (subst; apply dump_inv_init).
  clear E. induction Hr as [x|x y z Hxy Hyz IH]; [exact H0|].
  apply IH. exact (dump_inv_step files x y Hxy H0).
Qed.

(** Every step can be replayed on a state with other files on disk. *)
Lemma same_but_fs_step s s' t :
  dstep s s' -> same_but_fs s t -> exists t', dstep t t' /\ same_but_fs s' t'.
Proof.
  intros Hstep Hst. destruct t as [m2 p2 q2 sa2 w2 fs2 sent2 lg2].
  destruct Hst as (Hm & Hp & Hq & Hsa & Hw & Hs & Hatt); simpl in *.
  inversion Hstep; subst; simpl in *; subst.
  - eexists; split; [apply step_send; exact H|]. repeat split; assumption.
  - eexists; split; [apply step_send_panic|]. repeat split; assumption.
  - eexists; split; [apply step_drop_sender|]. repeat split; assumption.
  - eexists; split; [apply step_signal_handoff|]. repeat split; assumption.
  - eexists; split; [apply step_signal_panic|]. repeat split; assumption.
  - eexists; split; [apply step_drop_signal|]. repeat split; assumption.
  - eexists; split; [apply step_join|]. repeat split; assumption.
  - eexists; split; [apply step_recv|]. repeat split; assumption.
  - eexists; split; [apply step_recv_closed|]. repeat split; assumption.
  - eexists; split; [apply step_try_recv_empty|]. repeat split; assumption.
  - destruct (decide (f ∈ fs2)) as [Hin|Hin].
    + eexists; split; [apply step_remove_ok; exact Hin|].
      repeat split; simpl; rewrite ?attempted_snoc; simpl; congruence.
    + eexists; split; [apply step_remove_err; exact Hin|].
      repeat split; simpl; rewrite ?attempted_snoc; simpl; congruence.
  - destruct (decide (f ∈ fs2)) as [Hin|Hin].
    + eexists; split; [apply step_remove_ok; exact Hin|].
      repeat split; simpl; rewrite ?attempted_snoc; simpl; congruence.
    + eexists; split; [apply step_remove_err; exact Hin|].
      repeat split; simpl; rewrite ?attempted_snoc; simpl; congruence.
Qed.

Lemma same_but_fs_rtc s s' t :
  rtc dstep s s' -> same_but_fs s t -> exists t', rtc dstep t t' /\ same_but_fs s' t'.
Proof.
  intros Hr. revert t. induction Hr as [x|x y z Hxy Hyz IH]; intros t Ht.
  - exists t. split; [apply rtc_refl|exact Ht].
  - destruct (same_but_fs_step x y t Hxy Ht) as (t1 & Ht1 & Hyt1).
    destruct (IH t1 Hyt1) as (t2 & Ht2 & Hzt2).
    exists t2. split; [eapply rtc_l; eassumption|exact Hzt2].
Qed.

(** C4 as stated fails: after [send("a")], [send("b")], [shutdown()]
    there is a run in which [shutdown] returns normally, the worker has
    exited, and only ["a"] was attempted: the worker took ["b"] from the
    channel, found the stop signal waiting in [try_recv] and returned. *)
Lemma dump_shutdown_can_skip_sent_file :
  exists s, rtc dstep (dump_init (dump_program ["a"; "b"]) {["a"; "b"]}) s /\
    d_main s = [] /\ d_panicked s = false /\ d_worker s = WExited /\
    d_sent s = ["a"; "b"] /\ attempted (d_log s) = ["a"].
Proof.
  eexists. split.
  - unfold dump_init, dump_program, shutdown. simpl.
    eapply rtc_l; [apply step_send; discriminate|]. simpl.
    eapply rtc_l; [apply step_send; discriminate|]. simpl.
    eapply rtc_l; [apply step_recv|].
    eapply rtc_l; [apply step_try_recv_empty|].
    eapply rtc_l; [apply step_remove_ok; set_solver|].
    eapply rtc_l; [apply step_drop_sender|].
    eapply rtc_l; [apply step_recv|].
    eapply rtc_l; [apply step_signal_handoff|].
    eapply rtc_l; [apply step_drop_signal|].
    eapply rtc_l; [apply step_join|].
    apply rtc_refl.
  - simpl. repeat split.
Qed.

(** C4 (as amended): in every run of [send(f1)], ..., [send(fn)],
    [shutdown()], the deletions the worker attempts are, in order, a
    prefix of the filenames sent, and the filenames sent are a prefix of
    [f1 ... fn]: nothing is attempted out of order or twice, but the
    stop signal may end the worker before some sent filenames are
    attempted. Which files exist on disk (a missing file, a failed
    deletion) does not change which filenames are attempted: the same
    schedule replays, with the same attempts, on any other disk. *)
Theorem dump_attempts_in_order (files : list string) (fs : gset string) (s : dstate) :
  rtc dstep (dump_init (dump_program files) fs) s ->
  attempted (d_log s) `prefix_of` d_sent s /\
  d_sent s `prefix_of` files /\
  (forall fs' : gset string, exists t,
     rtc dstep (dump_init (dump_program files) fs') t /\ same_but_fs s t).
Proof.
  intros Hr. destruct (dump_inv_reach files fs s Hr) as (_ & Hpre & Hsent).
  split; [exact Hpre|]. split; [exists (sends_of (d_main s)); symmetry; exact Hsent|].
  intros fs'.
  assert (same_but_fs (dump_init (dump_program files) fs)
                      (dump_init (dump_program files) fs')) as H0
    by (repeat split).
  destruct (same_but_fs_rtc _ _ _ Hr H0) as (t & Ht & Hst).
  exists t. split; assumption.
Qed.

Lemma dump_sample_run_reach :
  rtc dstep (dump_init (dump_program ["a"; "b"]) {["b"]}) dump_sample_run.
Proof.
  unfold dump_init, dump_program, dump_sample_run, shutdown. simpl.
  eapply rtc_l; [apply step_send; discriminate|].
  eapply rtc_l; [apply step_send; discriminate|].
  eapply rtc_l; [apply step_recv|].
  eapply rtc_l; [apply step_try_recv_empty|].
  eapply rtc_l; [apply step_remove_err; set_solver|].
  eapply rtc_l; [apply step_recv|].
  eapply rtc_l; [apply step_try_recv_empty|].
  eapply rtc_l; [apply step_remove_ok; set_solver|].
  apply rtc_refl.
Qed.

Lemma dump_attempts_in_order_witness :
  rtc dstep (dump_init (dump_program ["a"; "b"]) {["b"]}) dump_sample_run /\
  (attempted (d_log dump_sample_run) `prefix_of` d_sent dump_sample_run /\
   d_sent dump_sample_run `prefix_of` ["a"; "b"] /\
   (forall fs' : gset string, exists t,
      rtc dstep (dump_init (dump_program ["a"; "b"]) fs') t /\
      same_but_fs dump_sample_run t)).
Proof.
  split; [exact dump_sample_run_reach|].
  apply (dump_attempts_in_order ["a"; "b"] {["b"]} dump_sample_run).
  exact dump_sample_run_reach.
Defined.

(** C9: when the worker is about to delete a file that does not exist,
    the deletion fails, the failure is logged to stderr, and the worker
    goes back to the channel with the main thread's state untouched; no
    step from there ends the worker, and a filename waiting in the
    channel is then received and its deletion attempted. *)
Theorem dump_remove_failure_continues (s : dstate) (f : string) :
  d_worker s = WDel f -> f ∉ d_fs s ->
  (exists s', dstep s s' /\ d_worker s' = WLoop /\
     d_log s' = d_log s ++ [LRemoveFailed f] /\
     d_main s' = d_main s /\ d_panicked s' = d_panicked s /\
     d_queue s' = d_queue s /\ d_sender_alive s' = d_sender_alive s /\
     d_sent s' = d_sent s) /\
  (forall s', dstep s s' -> d_worker s' <> WExited) /\
  (forall s', dstep s s' -> d_worker s' = WLoop ->
     d_log s' = d_log s ++ [LRemoveFailed f]) /\
  (forall g q, d_queue s = g :: q ->
     exists s1 s2 s3, dstep s s1 /\ dstep s1 s2 /\ dstep s2 s3 /\
       d_worker s3 = WDel g).
Proof.
  destruct s as [m p q0 sa w fs sent lg]; simpl. intros -> Hf.
  split; [|split; [|split]].
  - eexists. split; [apply step_remove_err; exact Hf|]. simpl. repeat split.
  - intros s' Hs. inversion Hs; subst; simpl; try discriminate; set_solver.
  - intros s' Hs Hw. inversion Hs; subst; simpl in *; try discriminate.
    + set_solver.
    + reflexivity.
  - intros g q ->.
    eexists _, _, _. split; [apply step_remove_err; exact Hf|].
    split; [apply step_recv|]. split; [apply step_try_recv_empty|]. reflexivity.
Qed.

Lemma dump_remove_failure_continues_witness :
  (exists s', dstep (mkD [] false ["b"] true (WDel "a") ∅ ["a"; "b"] []) s' /\
     d_worker s' = WLoop /\ d_log s' = [] ++ [LRemoveFailed "a"] /\
     d_main s' = [] /\ d_panicked s' = false /\ d_queue s' = ["b"] /\
     d_sender_alive s' = true /\ d_sent s' = ["a"; "b"]) /\
  (forall s', dstep (mkD [] false ["b"] true (WDel "a") ∅ ["a"; "b"] []) s' ->
     d_worker s' <> WExited) /\
  (forall s', dstep (mkD [] false ["b"] true (WDel "a") ∅ ["a"; "b"] []) s' ->
     d_worker s' = WLoop -> d_log s' = [] ++ [LRemoveFailed "a"]) /\
  (forall g q, ["b"] = g :: q ->
     exists s1 s2 s3, dstep (mkD [] false ["b"] true (WDel "a") ∅ ["a"; "b"] []) s1 /\
       dstep s1 s2 /\ dstep s2 s3 /\ d_worker s3 = WDel g).
Proof.
  apply (dump_remove_failure_continues (mkD [] false ["b"] true (WDel "a") ∅ ["a"; "b"] []) "a").
  - reflexivity.
  - simpl. set_solver.
Defined.

(* ------------------------------------------------------------------ *)
(** ** The [submit] methods *)

(** X2: an [io::Error] from running the submit command is never
    retried: when the first [j] runs exit non-zero and run [j] fails to
    start, [submit] runs the command [j+1] times, logs the retry and
    sleeps [sleep_int] seconds after each of the [j] failures only, and
    then panics on the [unwrap] with that error; the trace is exact. *)
Theorem pbs_submit_io_error_not_retried (q : Pbs) (c : Command)
    (exec : Command -> nat -> exec_result) (outs : nat -> Output) (j : nat) (e : string) :
  j <= 5 -> (forall i, i < j -> exec c i = ExecOk (outs i) /\ success (outs i) = false) ->
  exec c j = ExecErr e ->
  pbs_submit q (Ret c) exec =
    (flat_map (fun i => [EvExec i; EvRetryLog (outs i) (5 - i); EvSleep (pbs_sleep_int q)])
              (seq 0 j) ++ [EvExec j],
     Panic ("called `Result::unwrap()` on an `Err` value: " +:+ e)).
Proof.
  intros Hj Hf He. unfold pbs_submit, submit_inner.
  rewrite (submit_loop_prefix (exec c) (pbs_sleep_int q) outs j 5 0 Hj
             ltac:(intros i Hi; apply Hf; lia)).
  simpl Nat.add.
  destruct (5 - j); simpl; rewrite He; reflexivity.
Qed.

Lemma pbs_submit_io_error_not_retried_witness :
  pbs_submit (Pbs_new 100 200 30 "pts" false None)
    (Ret {| program := "qsub"; args := ["-f"; "job.pbs"]; current_dir := None |})
    (fun _ i => if (i <? 2)%nat then ExecOk qsub_rejected else ExecErr "No such file or directory") =
    (flat_map (fun i => [EvExec i; EvRetryLog qsub_rejected (5 - i);
                         EvSleep (pbs_sleep_int (Pbs_new 100 200 30 "pts" false None))])
              (seq 0 2) ++ [EvExec 2],
     Panic ("called `Result::unwrap()` on an `Err` value: " +:+ "No such file or directory")).
Proof.
  apply (pbs_submit_io_error_not_retried (Pbs_new 100 200 30 "pts" false None)
    {| program := "qsub"; args := ["-f"; "job.pbs"]; current_dir := None |}
    (fun _ i => if (i <? 2)%nat then ExecOk qsub_rejected else ExecErr "No such file or directory")
    (fun _ => qsub_rejected) 2 "No such file or directory").
  - lia.
  - intros i Hi. destruct (Nat.ltb_spec i 2); [split; reflexivity|lia].
  - reflexivity.
Defined.

(** X3: when the first [j] runs of the submit command exit non-zero and
    run [j] succeeds ([j <= 5]), [submit] runs the command [j+1] times,
    logs the retry and sleeps [sleep_int] seconds after each failure,
    and then returns the job id parsed from the stdout of run [j], or
    panics on [from_utf8(..).unwrap()] when that stdout is not UTF-8;
    the trace is exact. *)
Theorem pbs_submit_sleeps_before_success (q : Pbs) (c : Command)
    (exec : Command -> nat -> exec_result) (outs : nat -> Output) (j : nat) (o : Output) :
  j <= 5 -> (forall i, i < j -> exec c i = ExecOk (outs i) /\ success (outs i) = false) ->
  exec c j = ExecOk o -> success o = true ->
  pbs_submit q (Ret c) exec =
    (flat_map (fun i => [EvExec i; EvRetryLog (outs i) (5 - i); EvSleep (pbs_sleep_int q)])
              (seq 0 j) ++ [EvExec j],
     match from_utf8 (stdout o) with
     | Some raw => Ret (extract_jobid raw)
     | None => Panic "called `Result::unwrap()` on an `Err` value: Utf8Error"
     end).
Proof.
  intros Hj Hf Ho Hs. unfold pbs_submit, submit_inner.
  rewrite (submit_loop_prefix (exec c) (pbs_sleep_int q) outs j 5 0 Hj
             ltac:(intros i Hi; apply Hf; lia)).
  simpl Nat.add.
  destruct (5 - j); simpl; rewrite Ho, Hs; unfold accept;
    destruct (from_utf8 (stdout o)); reflexivity.
Qed.

Lemma pbs_submit_sleeps_before_success_witness :
  pbs_submit (Pbs_new 100 200 30 "pts" false None)
    (Ret {| program := "qsub"; args := ["-f"; "job.pbs"]; current_dir := None |})
    (fun _ => accepted_after 3) =
    (flat_map (fun i => [EvExec i; EvRetryLog qsub_rejected (5 - i);
                         EvSleep (pbs_sleep_int (Pbs_new 100 200 30 "pts" false None))])
              (seq 0 3) ++ [EvExec 3],
     match from_utf8 (stdout qsub_accepted) with
     | Some raw => Ret (extract_jobid raw)
     | None => Panic "called `Result::unwrap()` on an `Err` value: Utf8Error"
     end).
Proof.
  apply (pbs_submit_sleeps_before_success (Pbs_new 100 200 30 "pts" false None)
    {| program := "qsub"; args := ["-f"; "job.pbs"]; current_dir := None |}
    (fun _ => accepted_after 3) (fun _ => qsub_rejected) 3 qsub_accepted).
  - lia.
  - intros i Hi. unfold accepted_after.
    destruct (Nat.ltb_spec i 3); [split; reflexivity|lia].
  - reflexivity.
  - reflexivity.
Defined.

(* ------------------------------------------------------------------ *)
(** ** [Pbs::status] without a table *)

Lemma drop_while_all {A} (p : A -> bool) l :
  forallb p l = true -> drop_while p l = [].
Proof.
  induction l as [|x l IH]; simpl; [reflexivity|].
  intros H. apply andb_prop in H as [-> Hl]. exact (IH Hl).
Qed.

(** X4: when no line of the [qstat] output contains the 11-dash divider
    (qstat printed nothing, or printed an error message instead of a
    table), [status] returns the empty set, so the caller sees no job as
    still queued or running. *)
Theorem status_without_divider_is_empty (out : string) :
  forallb (fun l => negb (contains l divider)) (lines out) = true ->
  status out = Ret ∅.
Proof. intros H. unfold status. rewrite (drop_while_all _ _ H). reflexivity. Qed.

Lemma status_without_divider_is_empty_witness :
  status ("qstat: Unknown queue destination" +:+ nl) = Ret ∅.
Proof.
  apply (status_without_divider_is_empty ("qstat: Unknown queue destination" +:+ nl)).
  vm_compute. reflexivity.
Defined.

(* ------------------------------------------------------------------ *)
(** ** [Dump::shutdown]: the join and the stop signal *)

Lemma rtc_dstep_closed (P : dstate -> Prop) :
  (forall x y, P x -> dstep x y -> P y) ->
  forall x y, rtc dstep x y -> P x -> P y.
Proof.
  intros Hc x y Hr. induction Hr as [x|x y z Hxy Hyz IH]; intros Hx; [exact Hx|].
  apply IH. exact (Hc x y Hx Hxy).
Qed.

(** The join is still ahead of the main thread or the worker has exited;
    a panicked main thread has instructions left. *)
Definition join_inv (s : dstate) : Prop :=
  (IJoin ∈ d_main s \/ d_worker s = WExited) /\
  (d_panicked s = true -> d_main s <> []).

Lemma join_inv_step s s' : join_inv s -> dstep s s' -> join_inv s'.
Proof.
  intros [Hj Hp] Hstep. destruct Hstep; unfold join_inv in *; simpl in *.
  - split; [|discriminate].
    destruct Hj as [Hj|Hj]; [|by right].
    left. apply elem_of_cons in Hj as [Hj|Hj]; [discriminate|exact Hj].
  - split; [exact Hj|intros _; discriminate].
  - split; [|discriminate].
    destruct Hj as [Hj|Hj]; [|by right].
    left. apply elem_of_cons in Hj as [Hj|Hj]; [discriminate|exact Hj].
  - split; [by right|discriminate].
  - split; [exact Hj|intros _; discriminate].
  - split; [|discriminate].
    destruct Hj as [Hj|Hj]; [|by right].
    left. apply elem_of_cons in Hj as [Hj|Hj]; [discriminate|exact Hj].
  - split; [by right|discriminate].
  - split; [|exact Hp]. destruct Hj as [Hj|Hj]; [by left|discriminate].
  - split; [by right|exact Hp].
  - split; [|exact Hp]. destruct Hj as [Hj|Hj]; [by left|discriminate].
  - split; [|exact Hp]. destruct Hj as [Hj|Hj]; [by left|discriminate].
  - split; [|exact Hp]. destruct Hj as [Hj|Hj]; [by left|discriminate].
Qed.

Lemma join_inv_init files fs : join_inv (dump_init (dump_program files) fs).
Proof.
  split; [left|intros H; discriminate].
  simpl. unfold dump_program, shutdown. apply elem_of_app. right.
  apply elem_of_cons. right. apply elem_of_cons. right.
  apply elem_of_cons. right. apply elem_of_cons. by left.
Qed.

Lemma exited_done_terminal p q sa fs sent lg :
  terminal (mkD [] p q sa WExited fs sent lg).
Proof. intros u Hu. inversion Hu. Qed.

(** X5: [shutdown] returns only after the worker thread has exited: in
    every run of [send(f1)], ..., [send(fn)], [shutdown()], once the main
    thread has run its last instruction the worker has exited, the main
    thread has not panicked, and no thread can take a further step (no
    deletion is attempted after [shutdown] returns). *)
Theorem dump_shutdown_returns_after_worker_exit (files : list string) (fs : gset string)
    (s : dstate) :
  rtc dstep (dump_init (dump_program files) fs) s -> d_main s = [] ->
  d_worker s = WExited /\ d_panicked s = false /\ terminal s.
Proof.
  intros Hr Hm.
  destruct (rtc_dstep_closed join_inv join_inv_step _ _ Hr (join_inv_init files fs))
    as [Hj Hp].
  rewrite Hm in Hj, Hp.
  destruct Hj as [Hj|Hw]; [by apply elem_of_nil in Hj|].
  split; [exact Hw|]. split.
  - destruct (d_panicked s); [|reflexivity]. by destruct (Hp eq_refl).
  - destruct s as [m p q sa w fs' sent lg]; simpl in *. subst.
    apply exited_done_terminal.
Qed.

Lemma dump_shutdown_returns_after_worker_exit_witness :
  d_worker (mkD [] false [] false WExited {["a"]} ["a"] []) = WExited /\
  d_panicked (mkD [] false [] false WExited {["a"]} ["a"] []) = false /\
  terminal (mkD [] false [] false WExited {["a"]} ["a"] []).
Proof.
  apply (dump_shutdown_returns_after_worker_exit ["a"] {["a"]}
           (mkD [] false [] false WExited {["a"]} ["a"] [])).
  - unfold dump_init, dump_program, shutdown. simpl.
    eapply rtc_l; [apply step_send; discriminate|]. simpl.
    eapply rtc_l; [apply step_recv|].
    eapply rtc_l; [apply step_drop_sender|].
    eapply rtc_l; [apply step_signal_handoff|].
    eapply rtc_l; [apply step_drop_signal|].
    eapply rtc_l; [apply step_join|].
    apply rtc_refl.
  - reflexivity.
Defined.

(** The four states a drained [shutdown] can pass through. *)
Definition drained_run (fs : gset string) (sent : list string) (lg : list dlog)
    (t : dstate) : Prop :=
  t = mkD shutdown false [] true WLoop fs sent lg \/
  t = mkD [ISignal; IDropSignal; IJoin] false [] false WLoop fs sent lg \/
  t = mkD [ISignal; IDropSignal; IJoin] false [] false WExited fs sent lg \/
  t = mkD [ISignal; IDropSignal; IJoin] true [] false WExited fs sent lg.

Lemma drained_run_step fs sent lg x y :
  drained_run fs sent lg x -> dstep x y -> drained_run fs sent lg y.
Proof.
  unfold drained_run, shutdown.
  intros [-> | [-> | [-> | ->]]] Hstep; inversion Hstep; subst; auto.
Qed.

(** Every filename is sent, received and its deletion attempted before
    the next one is sent; [shutdown] then starts on a drained state. *)
Lemma dump_reach_drained files : forall fs sent lg,
  exists fs' lg',
    rtc dstep (mkD (map ISend files ++ shutdown) false [] true WLoop fs sent lg)
              (mkD shutdown false [] true WLoop fs' (sent ++ files) lg') /\
    attempted lg' = attempted lg ++ files.
Proof.
  induction files as [|f files IH]; intros fs sent lg.
  - exists fs, lg. rewrite !app_nil_r. split; [apply rtc_refl|reflexivity].
  - destruct (decide (f ∈ fs)) as [Hin|Hin].
    + destruct (IH (fs ∖ {[f]}) (sent ++ [f]) (lg ++ [LRemoved f])) as (fs' & lg' & Hr & Ha).
      exists fs', lg'. split.
      * simpl. eapply rtc_l; [apply step_send; discriminate|]. simpl.
        eapply rtc_l; [apply step_recv|].
        eapply rtc_l; [apply step_try_recv_empty|].
        eapply rtc_l; [apply step_remove_ok; exact Hin|].
        rewrite <- app_assoc in Hr. exact Hr.
      * rewrite Ha, attempted_snoc, <- app_assoc. reflexivity.
    + destruct (IH fs (sent ++ [f]) (lg ++ [LRemoveFailed f])) as (fs' & lg' & Hr & Ha).
      exists fs', lg'. split.
      * simpl. eapply rtc_l; [apply step_send; discriminate|]. simpl.
        eapply rtc_l; [apply step_recv|].
        eapply rtc_l; [apply step_try_recv_empty|].
        eapply rtc_l; [apply step_remove_err; exact Hin|].
        rewrite <- app_assoc in Hr. exact Hr.
      * rewrite Ha, attempted_snoc, <- app_assoc. reflexivity.
Qed.

(** X6: [shutdown] panics when the worker has already handled every
    filename: the stop signal is sent on a zero-capacity channel whose
    only receiver is the worker's [try_recv], made only after taking a
    filename; with the channel empty the worker instead sees the closed
    channel, returns and drops the receiver, so [signal.send(())]
    returns [Err] and its [unwrap] panics. For every list of filenames
    there is a run reaching that drained state with every filename
    attempted, and from a drained state every run that cannot be
    extended ends with the main thread panicked at [signal.send], no
    further deletion attempted, and such an end is always reachable. *)
Theorem dump_shutdown_panics_after_drain :
  (forall (files : list string) (fs : gset string), exists s,
     rtc dstep (dump_init (dump_program files) fs) s /\ drained s /\
     attempted (d_log s) = files) /\
  (forall s t, drained s -> rtc dstep s t -> terminal t ->
     d_panicked t = true /\ d_main t = [ISignal; IDropSignal; IJoin] /\
     d_log t = d_log s) /\
  (forall s, drained s -> exists t, rtc dstep s t /\ terminal t /\ d_panicked t = true).
Proof.
  split; [|split].
  - intros files fs.
    destruct (dump_reach_drained files fs [] []) as (fs' & lg' & Hr & Ha).
    eexists. split; [exact Hr|]. split; [repeat split|exact Ha].
  - intros s t (Hm & Hp & Hq & Hsa & Hw) Hr Ht.
    destruct s as [m p q sa w fs sent lg]; simpl in *; subst.
    assert (drained_run fs sent lg t) as Hrun.
    { apply (rtc_dstep_closed (drained_run fs sent lg) (drained_run_step fs sent lg) _ _ Hr).
      left. reflexivity. }
    destruct Hrun as [-> | [-> | [-> | ->]]].
    + exfalso. apply (Ht _ (step_drop_sender _ _ _ _ _ _ _)).
    + exfalso. apply (Ht _ (step_recv_closed _ _ _ _ _)).
    + exfalso. apply (Ht _ (step_signal_panic _ _ _ _ _ _)).
    + repeat split.
  - intros s (Hm & Hp & Hq & Hsa & Hw).
    destruct s as [m p q sa w fs sent lg]; simpl in *; subst.
    exists (mkD [ISignal; IDropSignal; IJoin] true [] false WExited fs sent lg).
    split; [|split; [intros u Hu; inversion Hu|reflexivity]].
    unfold shutdown.
    eapply rtc_l; [apply step_drop_sender|].
    eapply rtc_l; [apply step_recv_closed|].
    eapply rtc_l; [apply step_signal_panic|].
    apply rtc_refl.
Qed.

(* ------------------------------------------------------------------ *)
(** ** [Molpro::write_input] *)


Lemma optg_match_app_r s t : optg_match t = true -> optg_match (s +:+ t) = true.
Proof.
  induction s as [|c s IH]; intros H; [exact H|].
  rewrite append_String. simpl. rewrite (IH H). apply orb_true_r.
Qed.








(** X7: with [Procedure::Opt] the input always carries an optg
    directive: the template is kept when [OPTG] matches it, and
    otherwise [{optg,grms=1.d-8,srms=1.d-8}] and a newline are appended
    directly after its last character (on the last line when the
    template does not end in a newline); applying the step again
    changes nothing, so the directive is never added twice. The [\s] of
    [OPTG] is Unicode whitespace: the template [hf], newline, [optg]
    followed by a no-break space (U+00A0) already has a directive and is
    kept. *)
Theorem write_input_opt_adds_optg :
  (forall body : string,
   exists b, apply_procedure Opt body = Ret b /\ optg_match b = true /\
    apply_procedure Opt b = Ret b /\
    (optg_match body = true -> b = body) /\
    (optg_match body = false -> b = body +:+ "{optg,grms=1.d-8,srms=1.d-8}" +:+ nl)) /\
  apply_procedure Opt ("hf" +:+ nl +:+ "optg" +:+ nbsp) = Ret ("hf" +:+ nl +:+ "optg" +:+ nbsp).
Proof.
  split; [|vm_compute; reflexivity]. intros body.
  unfold apply_procedure. destruct (optg_match body) eqn:E.
  - exists body. rewrite E. repeat split; [intros H; discriminate].
  - assert (optg_match (body +:+ "{optg,grms=1.d-8,srms=1.d-8}" +:+ nl) = true) as Hm
      by (apply optg_match_app_r; reflexivity).
    exists (body +:+ "{optg,grms=1.d-8,srms=1.d-8}" +:+ nl).
    rewrite Hm. repeat split; [intros H; discriminate].
Qed.


Lemma zmat_lines_found ls : zmat_lines true ls = write_lines ls.
Proof.
  induction ls as [|l ls IH]; [reflexivity|]. simpl.
  rewrite andb_false_r, IH. reflexivity.
Qed.

(** X9: for a [Geom::Zmat] geometry, [write_input] writes its lines
    (each followed by a newline) with exactly one closing-brace line
    [}] inserted before the first line that contains [=], i.e. between
    the Z-matrix and its parameter values; with no [=] in any line no
    brace is added. *)
Theorem zmat_closing_brace (ls : list string) :
  zmat_lines false ls =
    write_lines (take_while (fun l => negb (has_char "=" l)) ls) +:+
    (if existsb (has_char "=") ls then "}" +:+ nl else EmptyString) +:+
    write_lines (drop_while (fun l => negb (has_char "=" l)) ls).
Proof.
  induction ls as [|l ls IH]; [reflexivity|]. simpl.
  destruct (has_char "=" l) eqn:E; simpl.
  - rewrite zmat_lines_found. reflexivity.
  - rewrite IH, !append_assoc_s. reflexivity.
Qed.

Lemma expand_no_dollar m rep : has_char "$" rep = false ->
  forall fuel, String.length rep < fuel -> expand_fuel fuel m rep = rep.
Proof.
  induction rep as [|c rep IH]; intros H fuel Hf; destruct fuel as [|fuel]; simpl in *;
    try lia; [reflexivity|].
  apply orb_false_iff in H as [Hc H]. rewrite Hc. simpl. f_equal. apply IH; [exact H|lia].
Qed.

Lemma prefix_append p s : String.prefix p (p +:+ s) = true.
Proof.
  induction p as [|c p IH]; [destruct s; reflexivity|].
  rewrite append_String. simpl. destruct (ascii_dec c c); [exact IH|contradiction].
Qed.

Lemma substring_full s : substring 0 (String.length s) s = s.
Proof. induction s as [|c s IH]; [reflexivity|]. simpl. f_equal. exact IH. Qed.

Lemma substring_after p s :
  substring (String.length p) (String.length (p +:+ s) - String.length p) (p +:+ s) = s.
Proof.
  induction p as [|c p IH].
  - rewrite append_nil_l, Nat.sub_0_r. apply substring_full.
  - rewrite append_String. simpl. exact IH.
Qed.

Lemma regex_replace_hit is_at len rep s : is_at s = Some len ->
  regex_replace is_at rep s =
    expand (substring 0 len s) rep +:+ substring len (String.length s - len) s.
Proof. intros H. destruct s; simpl; rewrite H; reflexivity. Qed.

Lemma regex_replace_miss is_at rep c s : is_at (String c s) = None ->
  regex_replace is_at rep (String c s) = String c (regex_replace is_at rep s).
Proof. intros H. simpl. rewrite H. reflexivity. Qed.

Lemma starts_lead_app a b : starts_lead a = true -> starts_lead (a +:+ b) = true.
Proof. destruct a; [discriminate|]. intros H. exact H. Qed.

Lemma span_cont_app r t : all_cont r = true -> starts_lead t = true ->
  span_cont (r +:+ t) = (r, t).
Proof.
  intros Hr Ht. induction r as [|a r IH].
  - destruct t as [|b t]; [discriminate|]. simpl in Ht |- *.
    destruct (is_cont b); [discriminate|reflexivity].
  - simpl in Hr. apply andb_true_iff in Hr as [Ha Hr].
    rewrite append_String. simpl. rewrite Ha, (IH Hr). reflexivity.
Qed.

(** The first character of [c +:+ t], when [c] is one character and [t]
    starts a new one, is [c]. *)
Lemma next_char_app c t : char_bytes c = true -> starts_lead t = true ->
  next_char (c +:+ t) = Some (c, t).
Proof.
  destruct c as [|a r]; [discriminate|]. intros Hc Ht. simpl in Hc.
  rewrite append_String. unfold next_char. rewrite (span_cont_app r t Hc Ht). reflexivity.
Qed.

(** X10: [GEOM.replace] and [CHARGE.replace] replace only the first
    placeholder: in a text whose first [{] opens a placeholder
    [{{.name}}] (the [.] standing for any one character but a newline,
    whatever the number of its UTF-8 bytes), that placeholder becomes
    the replacement text (one without [$], which [Regex::replace] would
    expand) and everything after it, including any further placeholders,
    is kept as it was. *)
Theorem placeholder_first_only (name pre b rep c : string) :
  has_char "{" pre = false -> char_bytes c = true -> c <> nl ->
  starts_lead (name +:+ "}}") = true -> has_char "$" rep = false ->
  placeholder_replace name rep (pre +:+ "{{" +:+ c +:+ name +:+ "}}" +:+ b) =
  pre +:+ rep +:+ b.
Proof.
  intros Hpre Hc Hnl Hn Hrep. unfold placeholder_replace.
  induction pre as [|d pre IH].
  - set (P := "{{" +:+ c +:+ name +:+ "}}").
    assert ("{{" +:+ c +:+ name +:+ "}}" +:+ b = P +:+ b) as E
      by (unfold P; rewrite !append_assoc_s; reflexivity).
    rewrite !append_nil_l, E.
    rewrite (regex_replace_hit _ (String.length P)).
    + rewrite substring_after. unfold expand.
      rewrite (expand_no_dollar _ rep Hrep); [reflexivity|lia].
    + rewrite <- E. change ("{{" +:+ ?X) with (String "{" (String "{" X)).
      unfold placeholder_at. cbn [Ascii.eqb Bool.eqb andb].
      rewrite (next_char_app c (name +:+ "}}" +:+ b) Hc)
        by (rewrite <- append_assoc_s; apply starts_lead_app; exact Hn).
      rewrite (proj2 (String.eqb_neq c nl) Hnl).
      rewrite <- append_assoc_s, prefix_append. cbn [negb andb].
      f_equal. unfold P. change ("{{" +:+ ?X) with (String "{" (String "{" X)).
      cbn [String.length]. rewrite !length_append_s. cbn [String.length]. lia.
  - simpl in Hpre. apply orb_false_iff in Hpre as [Hd Hpre].
    rewrite !append_String, regex_replace_miss.
    + f_equal. exact (IH Hpre).
    + unfold placeholder_at.
      destruct (pre +:+ _) as [|y z]; [reflexivity|]. rewrite Hd. reflexivity.
Qed.

Lemma placeholder_first_only_witness :
  placeholder_replace "geom" "G" ("x " +:+ "{{" +:+ e_acute +:+ "geom" +:+ "}}" +:+ " y {{.geom}}") =
  "x " +:+ "G" +:+ " y {{.geom}}".
Proof.
  apply (placeholder_first_only "geom" "x " " y {{.geom}}" "G" e_acute).
  - reflexivity.
  - reflexivity.
  - intros H. discriminate H.
  - reflexivity.
  - reflexivity.
Defined.

(* ------------------------------------------------------------------ *)
(** ** Where the main thread of a [Dump] can panic *)

(** The main thread is still sending (sender alive, worker running) or
    is past [drop(self.sender)]. *)
Definition main_phase (s : dstate) : Prop :=
  ((exists rest, d_main s = map ISend rest ++ shutdown) /\
     d_sender_alive s = true /\ d_worker s <> WExited) \/
  (d_sender_alive s = false /\
   (d_main s = [ISignal; IDropSignal; IJoin] \/ d_main s = [IDropSignal; IJoin] \/
    d_main s = [IJoin] \/ d_main s = [])).

Definition panic_inv (s : dstate) : Prop :=
  main_phase s /\
  (d_panicked s = true -> d_main s = [ISignal; IDropSignal; IJoin] /\ d_worker s = WExited).

Lemma sends_shutdown_cons i m rest :
  i :: m = map ISend rest ++ shutdown ->
  (exists f rest', i = ISend f /\ rest = f :: rest' /\ m = map ISend rest' ++ shutdown) \/
  (i = IDropSender /\ rest = [] /\ m = [ISignal; IDropSignal; IJoin]).
Proof.
  destruct rest as [|f rest']; simpl; intros E; injection E as -> ->.
  - right. auto.
  - left. eauto.
Qed.

(** A worker step leaves the main thread alone. *)
Lemma panic_inv_worker m p q sa w fs sent lg q' w' fs' lg' :
  panic_inv (mkD m p q sa w fs sent lg) -> w <> WExited -> w' <> WExited \/ sa = false ->
  panic_inv (mkD m p q' sa w' fs' sent lg').
Proof.
  intros [Hph Hpan] Hw Hw'. unfold panic_inv, main_phase in *; simpl in *. split.
  - destruct Hph as [(Hr & Hsa & _)|Hph]; [|right; exact Hph].
    destruct Hw' as [Hw'|Hw']; [left; auto|congruence].
  - intros Hp. destruct (Hpan Hp) as [_ Hx]. contradiction.
Qed.

Lemma panic_inv_step s s' : panic_inv s -> dstep s s' -> panic_inv s'.
Proof.
  intros Hinv Hstep. destruct Hstep.
  - (* send *)
    destruct Hinv as [Hph _]. unfold panic_inv, main_phase in *; simpl in *.
    split; [|discriminate].
    destruct Hph as [((rest & E) & Hsa & Hw)|(_ & E)].
    + left. split; [|auto].
      destruct (sends_shutdown_cons _ _ _ E) as [(f' & rest' & _ & _ & ->)|(? & _)];
        [eauto|discriminate].
    + exfalso. destruct E as [E|[E|[E|E]]]; discriminate.
  - (* send after the worker exited *)
    destruct Hinv as [Hph _]. unfold main_phase in Hph; simpl in Hph. exfalso.
    destruct Hph as [(_ & _ & Hw)|(_ & E)]; [exact (Hw eq_refl)|].
    destruct E as [E|[E|[E|E]]]; discriminate.
  - (* drop the sender *)
    destruct Hinv as [Hph _]. unfold panic_inv, main_phase in *; simpl in *.
    split; [|discriminate].
    destruct Hph as [((rest & E) & _ & _)|(_ & E)].
    + right. split; [reflexivity|left].
      destruct (sends_shutdown_cons _ _ _ E) as [(? & ? & ? & _)|(_ & _ & ->)];
        [discriminate|reflexivity].
    + exfalso. destruct E as [E|[E|[E|E]]]; discriminate.
  - (* stop signal taken by the worker *)
    destruct Hinv as [Hph _]. unfold panic_inv, main_phase in *; simpl in *.
    split; [|discriminate].
    destruct Hph as [((rest & E) & _ & _)|(Hsa & E)].
    + exfalso. destruct (sends_shutdown_cons _ _ _ E) as [(? & ? & ? & _)|(? & _)];
        discriminate.
    + right. split; [exact Hsa|].
      destruct E as [E|[E|[E|E]]]; try discriminate; injection E as ->; auto.
  - (* stop signal with the worker gone *)
    destruct Hinv as [Hph _]. unfold panic_inv, main_phase in *; simpl in *.
    destruct Hph as [(_ & _ & Hw)|(Hsa & E)]; [exfalso; exact (Hw eq_refl)|].
    assert (ISignal :: m = [ISignal; IDropSignal; IJoin]) as E'
      by (destruct E as [E|[E|[E|E]]]; [exact E|discriminate..]).
    split; [right; split; [exact Hsa|left; exact E']|].
    intros _. split; [exact E'|reflexivity].
  - (* drop the signal *)
    destruct Hinv as [Hph _]. unfold panic_inv, main_phase in *; simpl in *.
    split; [|discriminate].
    destruct Hph as [((rest & E) & _ & _)|(Hsa & E)].
    + exfalso. destruct (sends_shutdown_cons _ _ _ E) as [(? & ? & ? & _)|(? & _)];
        discriminate.
    + right. split; [exact Hsa|].
      destruct E as [E|[E|[E|E]]]; try discriminate. injection E as ->. auto.
  - (* join *)
    destruct Hinv as [Hph _]. unfold panic_inv, main_phase in *; simpl in *.
    split; [|discriminate].
    destruct Hph as [((rest & E) & _ & _)|(Hsa & E)].
    + exfalso. destruct (sends_shutdown_cons _ _ _ E) as [(? & ? & ? & _)|(? & _)];
        discriminate.
    + right. split; [exact Hsa|].
      destruct E as [E|[E|[E|E]]]; try discriminate. injection E as ->. auto.
  - apply (panic_inv_worker _ _ _ _ _ _ _ _ _ _ _ _ Hinv); [discriminate|left; discriminate].
  - apply (panic_inv_worker _ _ _ _ _ _ _ _ _ _ _ _ Hinv); [discriminate|right; reflexivity].
  - apply (panic_inv_worker _ _ _ _ _ _ _ _ _ _ _ _ Hinv); [discriminate|left; discriminate].
  - apply (panic_inv_worker _ _ _ _ _ _ _ _ _ _ _ _ Hinv); [discriminate|left; discriminate].
  - apply (panic_inv_worker _ _ _ _ _ _ _ _ _ _ _ _ Hinv); [discriminate|left; discriminate].
Qed.

(** X12: [Dump::send] never panics: the worker cannot exit while the
    sender is alive, so in every run of [send(f1)], ..., [send(fn)],
    [shutdown()] the only place the main thread can panic is the
    [signal.send(()).unwrap()] of [shutdown], after the worker has
    exited. *)
Theorem dump_panics_only_at_signal (files : list string) (fs : gset string) (s : dstate) :
  rtc dstep (dump_init (dump_program files) fs) s -> d_panicked s = true ->
  d_main s = [ISignal; IDropSignal; IJoin] /\ d_worker s = WExited.
Proof.
  intros Hr Hp.
  assert (panic_inv (dump_init (dump_program files) fs)) as H0.
  { split; [|discriminate]. left. split; [exists files; reflexivity|].
    split; [reflexivity|discriminate]. }
  destruct (rtc_dstep_closed panic_inv panic_inv_step _ _ Hr H0) as [_ Hpan].
  exact (Hpan Hp).
Qed.

Lemma dump_sample_panic_reach :
  rtc dstep (dump_init (dump_program ["a"]) {["a"]}) dump_sample_panic.
Proof.
  unfold dump_init, dump_program, dump_sample_panic, shutdown. simpl.
  eapply rtc_l; [apply step_send; discriminate|].
  eapply rtc_l; [apply step_recv|].
  eapply rtc_l; [apply step_try_recv_empty|].
  eapply rtc_l; [apply step_remove_ok; set_solver|].
  eapply rtc_l; [apply step_drop_sender|].
  eapply rtc_l; [apply step_recv_closed|].
  eapply rtc_l; [apply step_signal_panic|].
  apply rtc_refl.
Qed.

Lemma dump_panics_only_at_signal_witness :
  rtc dstep (dump_init (dump_program ["a"]) {["a"]}) dump_sample_panic /\
  d_panicked dump_sample_panic = true /\
  (d_main dump_sample_panic = [ISignal; IDropSignal; IJoin] /\
   d_worker dump_sample_panic = WExited).
Proof.
  split; [exact dump_sample_panic_reach|]. split; [reflexivity|].
  apply (dump_panics_only_at_signal ["a"] {["a"]} dump_sample_panic).
  - exact dump_sample_panic_reach.
  - reflexivity.
Defined.
